(** * F1 standings tracker: prediction, scoring and column visibility

    A shallow embedding of the stateful core of the application:
    - [public/js/utils/pointsCalculator.js]   (PointsCalculator)
    - [public/js/utils/predictionManager.js]  (PredictionManager)
    - [public/js/components/tableRenderer.js] (TableRenderer: collapsed set,
      bulk toggles, column order)
    - [public/js/app.js]                      (F1StandingsApp: swap-on-write,
      refresh)
    - [public/js/services/apiService.js]      (F1ApiService.loadAllData)

    JavaScript objects keyed by round are finite maps ([gmap string _]), the
    [Set] of collapsed column ids is a [gset string], and the per-round
    prediction object, which the swap loop walks with [Object.entries], is an
    insertion-ordered association list. *)

From stdpp Require Import base decidable option list strings gmap.
From Stdlib Require Import ZArith Lia Sorted.

#[local] Set Warnings "-clear-no-such-hyp".

Open Scope string_scope.
Open Scope Z_scope.
Open Scope list_scope.

(** ** JavaScript values met by the code *)

(** Numbers: the code only produces integers and, through [parseInt] of a
    non-numeric value, [NaN]. *)
Inductive jsnum : Type :=
  | NaN
  | Num (z : Z).

(** Values that travel through the prediction path: the value of a
    [<select>] (the decimal string of an integer, [JDecimal]), a number,
    [null] and [undefined]. *)
Inductive jsval : Type :=
  | JUndefined
  | JNull
  | JNumber (x : jsnum)
  | JDecimal (z : Z).

#[global] Instance jsnum_eq_dec : EqDecision jsnum.
Proof. solve_decision. Defined.
#[global] Instance jsval_eq_dec : EqDecision jsval.
Proof. solve_decision. Defined.

(** [parseInt(v)]: an integer or its decimal string read back as the
    integer; [null], [undefined] and [NaN] give [NaN]. *)
Definition parseInt (v : jsval) : jsnum :=
  match v with
  | JUndefined | JNull => NaN
  | JNumber x => x
  | JDecimal z => Num z
  end.

(** [x > 0] on numbers ([NaN > 0] is false). *)
Definition gt0 (x : jsnum) : bool :=
  match x with
  | NaN => false
  | Num z => bool_decide (0 < z)
  end.

(** ** Plain objects with insertion-ordered own properties

    [Object.entries] lists string-named properties in the order they were
    first assigned. The property names here are driver ids
    ("max_verstappen", "hamilton", ...), none of which is an array index,
    so this is the order of the whole object. *)

Abbreviation obj := (list (string * jsval)).

(** Own-property lookup: [o.hasOwnProperty(k)] is [is_Some (obj_lookup o k)]. *)
Fixpoint obj_lookup (o : obj) (k : string) : option jsval :=
  match o with
  | [] => None
  | (k', v) :: rest => if decide (k' = k) then Some v else obj_lookup rest k
  end.

(** [o[k]]: a missing property reads as [undefined]. *)
Definition obj_get (o : obj) (k : string) : jsval :=
  default JUndefined (obj_lookup o k).

(** [o[k] = v]: an existing property keeps its place, a new one goes last. *)
Fixpoint obj_set (o : obj) (k : string) (v : jsval) : obj :=
  match o with
  | [] => [(k, v)]
  | (k', v') :: rest =>
      if decide (k' = k) then (k, v) :: rest else (k', v') :: obj_set rest k v
  end.

(** An object has each property name once. *)
Definition obj_wf (o : obj) : Prop := NoDup (o.*1).

(** ** Data delivered by the results provider *)

(** An entry of [raceResults[round]] / [sprintResults[round]]. The numeric
    strings of the provider ([position], [points]) are held as the integers
    they spell, on which [parseInt] is the identity. *)
Record ResultEntry : Type := {
  res_driverId : string;        (* Driver.driverId *)
  res_positionText : string;    (* "1", "2", ..., "R", "D", ... *)
  res_position : Z;
  res_points : Z
}.

(** An entry of [qualifyingResults[round]]. *)
Record QualifyingEntry : Type := {
  q_driverId : string;
  q_position : Z
}.

(** An element of [driversData] (built in [loadData]); [position] and
    [currentPoints] are the integers [parseInt] read from the standings. *)
Record Driver : Type := {
  d_driverId : string;
  d_code : string;
  d_position : Z;
  d_currentPoints : Z
}.

(** A race of the schedule; [Sprint] is present on sprint weekends. *)
Record Race : Type := {
  round : string;
  raceName : string;
  Sprint : option string
}.

(** Column ids of a round: [`race-${round}`] and [`sprint-${round}`]. *)
Definition raceKey (rnd : string) : string := "race-" +:+ rnd.
Definition sprintKey (rnd : string) : string := "sprint-" +:+ rnd.

(** [results[round]] used as a condition: a stored array is truthy. *)
Definition hasResults (results : gmap string (list ResultEntry))
    (rnd : string) : bool :=
  bool_decide (is_Some (results !! rnd)).

(** [race.Sprint !== undefined] *)
Definition hasSprint (race : Race) : bool := bool_decide (Sprint race ≠ None).

(** ** PointsCalculator *)

Definition POINTS_SYSTEM (position : Z) : option Z :=
  match position with
  | 1 => Some 25 | 2 => Some 18 | 3 => Some 15 | 4 => Some 12 | 5 => Some 10
  | 6 => Some 8 | 7 => Some 6 | 8 => Some 4 | 9 => Some 2 | 10 => Some 1
  | _ => None
  end.

Definition SPRINT_POINTS_SYSTEM (position : Z) : option Z :=
  match position with
  | 1 => Some 8 | 2 => Some 7 | 3 => Some 6 | 4 => Some 5 | 5 => Some 4
  | 6 => Some 3 | 7 => Some 2 | 8 => Some 1
  | _ => None
  end.

(** [POINTS_SYSTEM[position] || 0] *)
Definition getRacePoints (position : Z) : Z :=
  default 0 (POINTS_SYSTEM position).

Definition getSprintPoints (position : Z) : Z :=
  default 0 (SPRINT_POINTS_SYSTEM position).

(** The object returned for an actual result. *)
Record DriverResult : Type := {
  position : Z;
  points : Z;
  isActual : bool
}.

Definition getDriverRaceResult (driverId : string) (rnd : string)
    (raceResults : gmap string (list ResultEntry)) : option DriverResult :=
  match raceResults !! rnd with
  | Some entries =>
      match List.find (λ r, bool_decide (res_driverId r = driverId)) entries with
      | Some result =>
          Some {| position := if decide (res_positionText result = "R")
                              then 0 else res_position result;
                  points := res_points result;
                  isActual := true |}
      | None => None
      end
  | None => None
  end.

Definition getDriverSprintResult (driverId : string) (rnd : string)
    (sprintResults : gmap string (list ResultEntry)) : option DriverResult :=
  match sprintResults !! rnd with
  | Some entries =>
      match List.find (λ r, bool_decide (res_driverId r = driverId)) entries with
      | Some result =>
          Some {| position := if decide (res_positionText result = "R")
                              then 0 else res_position result;
                  points := res_points result;
                  isActual := true |}
      | None => None
      end
  | None => None
  end.

(** Body of the [for (const race of races)] loop of
    [calculateTotalPoints], as a step on the running total. *)
Definition addRacePoints (driverId : string)
    (raceResults sprintResults : gmap string (list ResultEntry))
    (collapsedColumns : gset string)
    (getPredictedPosition : string → string → bool → jsnum)
    (totalPoints : Z) (race : Race) : Z :=
  let rnd := round race in
  let totalPoints :=
    if hasSprint race
       && negb (bool_decide (sprintKey rnd ∈ collapsedColumns)) then
      match getDriverSprintResult driverId rnd sprintResults with
      | Some sprintResult => totalPoints + points sprintResult
      | None =>
          match getPredictedPosition driverId rnd true with
          | Num predictedPos =>
              if bool_decide (0 < predictedPos)
              then totalPoints + getSprintPoints predictedPos
              else totalPoints
          | NaN => totalPoints
          end
      end
    else totalPoints in
  if negb (bool_decide (raceKey rnd ∈ collapsedColumns)) then
    match getDriverRaceResult driverId rnd raceResults with
    | Some raceResult => totalPoints + points raceResult
    | None =>
        match getPredictedPosition driverId rnd false with
        | Num predictedPos =>
            if bool_decide (0 < predictedPos)
            then totalPoints + getRacePoints predictedPos
            else totalPoints
        | NaN => totalPoints
        end
    end
  else totalPoints.

Definition calculateTotalPoints (driverId : string) (races : list Race)
    (raceResults sprintResults : gmap string (list ResultEntry))
    (userPredictions sprintPredictions : gmap string obj)
    (collapsedColumns : gset string)
    (getPredictedPosition : string → string → bool → jsnum) : Z :=
  fold_left
    (addRacePoints driverId raceResults sprintResults collapsedColumns
       getPredictedPosition)
    races 0.

(** ** PredictionManager *)

Record PredictionManager : Type := {
  userPredictions : gmap string obj;
  sprintPredictions : gmap string obj
}.

Definition getPredictedPosition (this : PredictionManager)
    (driverId : string) (rnd : string) (isSprint : bool)
    (qualifyingResults sprintQualifyingResults : gmap string (list QualifyingEntry))
    (driversData : list Driver) : jsnum :=
  (* Check user predictions first *)
  let predictions :=
    if isSprint then sprintPredictions this else userPredictions this in
  let own :=
    match predictions !! rnd with
    | Some o => obj_lookup o driverId
    | None => None
    end in
  match own with
  | Some pos => if decide (pos = JNull) then Num 0 else parseInt pos
  | None =>
      (* Check qualifying results to see if driver participated *)
      let qualResults :=
        if isSprint then sprintQualifyingResults else qualifyingResults in
      match qualResults !! rnd with
      | Some entries =>
          match List.find (λ q, bool_decide (q_driverId q = driverId)) entries with
          | Some qualResult => Num (q_position qualResult)
          | None => Num 0
          end
      | None =>
          (* Default to current championship position, or null if past 20 *)
          match List.find (λ d, bool_decide (d_driverId d = driverId)) driversData with
          | None => Num 0
          | Some driver =>
              if bool_decide (20 < d_position driver) then Num 0
              else Num (d_position driver)
          end
      end
  end.

(** [if (!m[round]) m[round] = {}; m[round][driverId] = position] on one of
    the two prediction maps. *)
Definition setSlot (m : gmap string obj) (driverId rnd : string)
    (pos : jsval) : gmap string obj :=
  <[rnd := obj_set (default [] (m !! rnd)) driverId pos]> m.

Module PM.

Definition updatePrediction (this : PredictionManager)
    (driverId rnd : string) (pos : jsval) : PredictionManager :=
  {| userPredictions := setSlot (userPredictions this) driverId rnd pos;
     sprintPredictions := sprintPredictions this |}.

Definition updateSprintPrediction (this : PredictionManager)
    (driverId rnd : string) (pos : jsval) : PredictionManager :=
  {| userPredictions := userPredictions this;
     sprintPredictions := setSlot (sprintPredictions this) driverId rnd pos |}.

Definition resetPredictions (this : PredictionManager) : PredictionManager :=
  {| userPredictions := ∅; sprintPredictions := ∅ |}.

End PM.

(** ** TableRenderer: the collapsed-column set *)

Record TableRenderer : Type := {
  collapsedColumns : gset string
}.

Module TR.

Definition toggleColumn (this : TableRenderer) (columnId : string)
    : TableRenderer :=
  if bool_decide (columnId ∈ collapsedColumns this)
  then {| collapsedColumns := collapsedColumns this ∖ {[columnId]} |}
  else {| collapsedColumns := {[columnId]} ∪ collapsedColumns this |}.

(** First loop of [toggleAllFuture]: stops at the first unresolved race
    whose race column is not collapsed. *)
Fixpoint anyFutureVisible (collapsed : gset string)
    (raceResults : gmap string (list ResultEntry))
    (races : list Race) : bool :=
  match races with
  | [] => false
  | race :: rest =>
      if negb (hasResults raceResults (round race))
         && negb (bool_decide (raceKey (round race) ∈ collapsed))
      then true
      else anyFutureVisible collapsed raceResults rest
  end.

(** [add] when collapsing, [delete] when expanding. *)
Definition setCollapsed (collapse : bool) (key : string)
    (collapsed : gset string) : gset string :=
  if collapse then {[key]} ∪ collapsed else collapsed ∖ {[key]}.

(** Body of the second loop of [toggleAllFuture]. *)
Definition toggleFutureStep (collapse : bool)
    (raceResults sprintResults : gmap string (list ResultEntry))
    (collapsed : gset string) (race : Race) : gset string :=
  let rnd := round race in
  let collapsed :=
    if negb (hasResults raceResults rnd)
    then setCollapsed collapse (raceKey rnd) collapsed
    else collapsed in
  if hasSprint race && negb (hasResults sprintResults rnd)
  then setCollapsed collapse (sprintKey rnd) collapsed
  else collapsed.

Definition toggleAllFuture (this : TableRenderer) (races : list Race)
    (raceResults sprintResults : gmap string (list ResultEntry))
    : TableRenderer * bool :=
  let anyVisible := anyFutureVisible (collapsedColumns this) raceResults races in
  let collapsed :=
    fold_left (toggleFutureStep anyVisible raceResults sprintResults)
      races (collapsedColumns this) in
  (* Also toggle predicted points and standings columns *)
  let collapsed :=
    setCollapsed anyVisible "predicted-standing"
      (setCollapsed anyVisible "predicted-points" collapsed) in
  ({| collapsedColumns := collapsed |}, anyVisible).

Fixpoint anyPastVisible (collapsed : gset string)
    (raceResults : gmap string (list ResultEntry))
    (races : list Race) : bool :=
  match races with
  | [] => false
  | race :: rest =>
      if hasResults raceResults (round race)
         && negb (bool_decide (raceKey (round race) ∈ collapsed))
      then true
      else anyPastVisible collapsed raceResults rest
  end.

Definition togglePastStep (collapse : bool)
    (raceResults sprintResults : gmap string (list ResultEntry))
    (collapsed : gset string) (race : Race) : gset string :=
  let rnd := round race in
  let collapsed :=
    if hasResults raceResults rnd
    then setCollapsed collapse (raceKey rnd) collapsed
    else collapsed in
  if hasSprint race && hasResults sprintResults rnd
  then setCollapsed collapse (sprintKey rnd) collapsed
  else collapsed.

Definition toggleAllPast (this : TableRenderer) (races : list Race)
    (raceResults sprintResults : gmap string (list ResultEntry))
    : TableRenderer * bool :=
  let anyVisible := anyPastVisible (collapsedColumns this) raceResults races in
  ({| collapsedColumns :=
        fold_left (togglePastStep anyVisible raceResults sprintResults)
          races (collapsedColumns this) |},
   anyVisible).

Definition expandAll (this : TableRenderer) : TableRenderer :=
  {| collapsedColumns := ∅ |}.

End TR.

(** ** Column order *)

Inductive ColumnType : Type := sprint | race.

Record Column : Type := {
  type : ColumnType;
  col_round : string;
  col_race : Race;
  isCollapsed : bool;
  isFuture : bool
}.

#[global] Instance ColumnType_eq_dec : EqDecision ColumnType.
Proof. solve_decision. Defined.

(** [Array.prototype.sort(cmp)]. The engine's algorithm is not part of the
    program; the language requires the sort to be stable, and the model is
    the stable insertion sort: an element is moved right only past elements
    the comparator puts strictly before it. *)
Section Sort.
Context {A : Type} (cmp : A → A → Z).

Fixpoint sort_insert (x : A) (sorted : list A) : list A :=
  match sorted with
  | [] => [x]
  | y :: rest =>
      if bool_decide (0 < cmp x y) then y :: sort_insert x rest
      else x :: y :: rest
  end.

Fixpoint js_sort (l : list A) : list A :=
  match l with
  | [] => []
  | x :: rest => sort_insert x (js_sort rest)
  end.
End Sort.

(** The comparator of [getOrderedColumns]. *)
Definition compareCollapsed (a b : Column) : Z :=
  if decide (isCollapsed a = isCollapsed b) then 0
  else if isCollapsed a then 1 else -1.

(** The columns pushed for one race: the sprint column, when the weekend
    has one, then the race column. *)
Definition columnsOfRace (collapsed : gset string)
    (raceResults sprintResults : gmap string (list ResultEntry))
    (r : Race) : list Column :=
  let rnd := round r in
  (if hasSprint r
   then [ {| type := sprint; col_round := rnd; col_race := r;
             isCollapsed := bool_decide (sprintKey rnd ∈ collapsed);
             isFuture := negb (hasResults sprintResults rnd) |} ]
   else [])
  ++ [ {| type := race; col_round := rnd; col_race := r;
          isCollapsed := bool_decide (raceKey rnd ∈ collapsed);
          isFuture := negb (hasResults raceResults rnd) |} ].

(** The list built by the first loop of [getOrderedColumns]. *)
Definition buildColumns (collapsed : gset string) (races : list Race)
    (raceResults sprintResults : gmap string (list ResultEntry)) : list Column :=
  concat (map (columnsOfRace collapsed raceResults sprintResults) races).

Definition getOrderedColumns (this : TableRenderer) (races : list Race)
    (raceResults sprintResults : gmap string (list ResultEntry)) : list Column :=
  js_sort compareCollapsed
    (buildColumns (collapsedColumns this) races raceResults sprintResults).

(** ** F1StandingsApp *)

Record F1StandingsApp : Type := {
  predictionManager : PredictionManager;
  tableRenderer : TableRenderer;
  driversData : list Driver;
  racesData : list Race;
  raceResults : gmap string (list ResultEntry);
  sprintResults : gmap string (list ResultEntry);
  qualifyingResults : gmap string (list QualifyingEntry);
  sprintQualifyingResults : gmap string (list QualifyingEntry)
}.

Definition withPredictionManager (this : F1StandingsApp)
    (pm : PredictionManager) : F1StandingsApp :=
  {| predictionManager := pm;
     tableRenderer := tableRenderer this;
     driversData := driversData this;
     racesData := racesData this;
     raceResults := raceResults this;
     sprintResults := sprintResults this;
     qualifyingResults := qualifyingResults this;
     sprintQualifyingResults := sprintQualifyingResults this |}.

Definition withTableRenderer (this : F1StandingsApp)
    (tr : TableRenderer) : F1StandingsApp :=
  {| predictionManager := predictionManager this;
     tableRenderer := tr;
     driversData := driversData this;
     racesData := racesData this;
     raceResults := raceResults this;
     sprintResults := sprintResults this;
     qualifyingResults := qualifyingResults this;
     sprintQualifyingResults := sprintQualifyingResults this |}.

(** The closure handed to the renderer and to the calculator. *)
Definition predictedPositionOf (this : F1StandingsApp)
    (driverId rnd : string) (isSprint : bool) : jsnum :=
  getPredictedPosition (predictionManager this) driverId rnd isSprint
    (qualifyingResults this) (sprintQualifyingResults this) (driversData this).

(** [calculatePoints] of [renderTable]. *)
Definition calculatePoints (this : F1StandingsApp) (driverId : string) : Z :=
  calculateTotalPoints driverId (racesData this)
    (raceResults this) (sprintResults this)
    (userPredictions (predictionManager this))
    (sprintPredictions (predictionManager this))
    (collapsedColumns (tableRenderer this))
    (predictedPositionOf this).

(** [renderTable] reads the state and writes only the container's HTML. *)
Definition renderTable (this : F1StandingsApp) : F1StandingsApp := this.

(** [a === b] *)
Definition strictEq (a b : jsval) : bool :=
  match a, b with
  | JUndefined, JUndefined => true
  | JNull, JNull => true
  | JNumber (Num x), JNumber (Num y) => bool_decide (x = y)
  | JDecimal x, JDecimal y => bool_decide (x = y)
  | _, _ => false
  end.

(** [position === '0' || position === 0 ? null : parseInt(position)] *)
Definition toPos (position : jsval) : jsval :=
  if strictEq position (JDecimal 0) || strictEq position (JNumber (Num 0))
  then JNull
  else JNumber (parseInt position).

(** [pos && pos > 0] *)
Definition isPositive (pos : jsval) : bool :=
  match pos with
  | JNumber x => gt0 x
  | JDecimal z => bool_decide (0 < z)
  | JUndefined | JNull => false
  end.

(** The [for ... of Object.entries(predictions)] loop up to its [break]:
    the first other driver whose stored value parses to [pos]. *)
Fixpoint findConflict (entries : obj) (driverId : string) (pos : jsval)
    : option string :=
  match entries with
  | [] => None
  | (otherDriverId, otherPos) :: rest =>
      if bool_decide (otherDriverId ≠ driverId)
         && strictEq (JNumber (parseInt otherPos)) pos
      then Some otherDriverId
      else findConflict rest driverId pos
  end.

Definition updatePrediction (this : F1StandingsApp)
    (driverId rnd : string) (position : jsval) : F1StandingsApp :=
  let pos := toPos position in
  let pm := predictionManager this in
  let pm :=
    if isPositive pos then
      let predictions := default [] (userPredictions pm !! rnd) in
      match findConflict predictions driverId pos with
      | Some otherDriverId =>
          let oldPos := obj_get predictions driverId in
          PM.updatePrediction pm otherDriverId rnd oldPos
      | None => pm
      end
    else pm in
  renderTable
    (withPredictionManager this (PM.updatePrediction pm driverId rnd pos)).

Definition updateSprintPrediction (this : F1StandingsApp)
    (driverId rnd : string) (position : jsval) : F1StandingsApp :=
  let pos := toPos position in
  let pm := predictionManager this in
  let pm :=
    if isPositive pos then
      let predictions := default [] (sprintPredictions pm !! rnd) in
      match findConflict predictions driverId pos with
      | Some otherDriverId =>
          let oldPos := obj_get predictions driverId in
          PM.updateSprintPrediction pm otherDriverId rnd oldPos
      | None => pm
      end
    else pm in
  renderTable
    (withPredictionManager this (PM.updateSprintPrediction pm driverId rnd pos)).

Definition toggleColumn (this : F1StandingsApp) (columnId : string)
    : F1StandingsApp :=
  renderTable
    (withTableRenderer this (TR.toggleColumn (tableRenderer this) columnId)).

Definition resetPredictions (this : F1StandingsApp) : F1StandingsApp :=
  renderTable
    (withPredictionManager this (PM.resetPredictions (predictionManager this))).

Definition toggleAllFuture (this : F1StandingsApp) : F1StandingsApp :=
  renderTable
    (withTableRenderer this
       (TR.toggleAllFuture (tableRenderer this) (racesData this)
          (raceResults this) (sprintResults this)).1).

(** ** Specification-side notions *)

(** What a single write does to the prediction object of its round and
    event-kind: the swap, when there is one, then the write itself. *)
Definition swapWrite (o : obj) (driverId : string) (position : jsval) : obj :=
  let pos := toPos position in
  let o1 :=
    if isPositive pos then
      match findConflict o driverId pos with
      | Some otherDriverId => obj_set o otherDriverId (obj_get o driverId)
      | None => o
      end
    else o in
  obj_set o1 driverId pos.

(** Driver [k] holds the concrete position [p] in the object [o]. *)
Definition holds (o : obj) (k : string) (p : Z) : Prop :=
  ∃ v, obj_lookup o k = Some v ∧ parseInt v = Num p.

(** The one-to-one invariant of one (round, event-kind) prediction map. *)
Definition one_to_one (o : obj) : Prop :=
  ∀ k1 k2 p, 0 < p → holds o k1 p → holds o k2 p → k1 = k2.

(** Every round's prediction object is a well-formed object satisfying the
    one-to-one invariant. *)
Definition store_ok (m : gmap string obj) : Prop :=
  ∀ rnd o, m !! rnd = Some o → obj_wf o ∧ one_to_one o.

(** The explicit entry of the store for (round, event-kind, participant). *)
Definition storedEntry (pm : PredictionManager) (isSprint : bool)
    (rnd driverId : string) : option jsval :=
  (if isSprint then sprintPredictions pm else userPredictions pm) !! rnd
    ≫= λ o, obj_lookup o driverId.

(** Published qualifying data for the round: [None] when nothing is
    published, [Some None] when the participant does not appear in it,
    [Some (Some q)] when they qualified at [q]. *)
Definition qualifyingPosition (qual : gmap string (list QualifyingEntry))
    (rnd driverId : string) : option (option Z) :=
  (λ entries,
     q_position <$> List.find (λ q, bool_decide (q_driverId q = driverId)) entries)
  <$> qual !! rnd.

(** The participant's current championship position, when known. *)
Definition championshipPosition (drivers : list Driver) (driverId : string)
    : option Z :=
  d_position <$> List.find (λ d, bool_decide (d_driverId d = driverId)) drivers.

(** A stored prediction as the specification has it: a concrete position,
    or the explicit "no prediction". *)
Inductive StoredPrediction : Type :=
  | NoPrediction
  | Position (p : Z).

(** How a value found in the store reads as a stored prediction: [null] is
    "no prediction", an integer or the decimal string of one is that
    position. [undefined] and [NaN] are no stored prediction at all. *)
Definition asStoredPrediction (v : jsval) : option StoredPrediction :=
  match v with
  | JNull => Some NoPrediction
  | JNumber (Num p) => Some (Position p)
  | JDecimal p => Some (Position p)
  | JUndefined | JNumber NaN => None
  end.

(** The priority chain as the specification words it: a stored position is
    the predicted position and a stored "no prediction" counts as 0; with
    nothing stored, the qualifying position when qualifying is published (0
    when the participant did not qualify); with no qualifying published,
    the championship position when it is at most 20, and 0 when it is
    larger or the participant is unknown. *)
Definition priorityChain (stored : option StoredPrediction)
    (qualifying : option (option Z)) (championship : option Z) : Z :=
  match stored with
  | Some (Position p) => p
  | Some NoPrediction => 0
  | None =>
      match qualifying with
      | Some (Some q) => q
      | Some None => 0
      | None =>
          match championship with
          | Some c => if decide (c ≤ 20) then c else 0
          | None => 0
          end
      end
  end.

(** The columns the future toggle acts on: the race column of every
    unresolved race, the sprint column of every unresolved sprint, and the
    two synthetic projected columns. *)
Definition futureColumnsOf
    (raceResults sprintResults : gmap string (list ResultEntry))
    (r : Race) : gset string :=
  (if hasResults raceResults (round r) then ∅ else {[raceKey (round r)]})
  ∪ (if hasSprint r && negb (hasResults sprintResults (round r))
     then {[sprintKey (round r)]} else ∅).

Definition futureColumns (races : list Race)
    (raceResults sprintResults : gmap string (list ResultEntry)) : gset string :=
  ⋃ (futureColumnsOf raceResults sprintResults <$> races)
  ∪ {["predicted-points"; "predicted-standing"]}.

(** Some unresolved race of the schedule has its race column visible. *)
Definition futureRaceVisible (collapsed : gset string) (races : list Race)
    (raceResults : gmap string (list ResultEntry)) : Prop :=
  ∃ r, r ∈ races ∧ hasResults raceResults (round r) = false
       ∧ raceKey (round r) ∉ collapsed.

(** Some unresolved column of either kind is visible. *)
Definition futureColumnVisible (collapsed : gset string) (races : list Race)
    (raceResults sprintResults : gmap string (list ResultEntry)) : Prop :=
  futureRaceVisible collapsed races raceResults
  ∨ ∃ r, r ∈ races ∧ hasSprint r = true
         ∧ hasResults sprintResults (round r) = false
         ∧ sprintKey (round r) ∉ collapsed.

(** The schedule has an unresolved race. *)
Definition hasFutureRace (races : list Race)
    (raceResults : gmap string (list ResultEntry)) : Prop :=
  ∃ r, r ∈ races ∧ hasResults raceResults (round r) = false.

(** Two presses of the future toggle. *)
Definition toggleAllFutureTwice (this : TableRenderer) (races : list Race)
    (raceResults sprintResults : gmap string (list ResultEntry))
    : TableRenderer :=
  (TR.toggleAllFuture
     (TR.toggleAllFuture this races raceResults sprintResults).1
     races raceResults sprintResults).1.

(** Visible columns in their order, then collapsed columns in their order. *)
Definition stablePartition (columns : list Column) : list Column :=
  filter (λ c, isCollapsed c = false) columns
  ++ filter (λ c, isCollapsed c = true) columns.

(** The object built from a provider entry by [getDriverRaceResult] and
    [getDriverSprintResult]: position 0 for a retirement, the awarded
    points as they are stored. *)
Definition resultOf (result : ResultEntry) : DriverResult :=
  {| position := if decide (res_positionText result = "R")
                 then 0 else res_position result;
     points := res_points result;
     isActual := true |}.

(** What the language asks of [sort] under [compareCollapsed], whatever the
    engine's algorithm: the output is ordered by the comparator, and columns
    that compare equal (same collapsed flag) keep their relative order. *)
Definition stableSortOf (columns out : list Column) : Prop :=
  StronglySorted (λ a b, compareCollapsed a b ≤ 0) out
  ∧ ∀ b : bool,
      filter (λ c, isCollapsed c = b) out
      = filter (λ c, isCollapsed c = b) columns.

(** The prediction map of one event-kind, and the write that targets it. *)
Definition predictionMap (isSprint : bool) (pm : PredictionManager)
    : gmap string obj :=
  if isSprint then sprintPredictions pm else userPredictions pm.

Definition writePrediction (isSprint : bool)
    : F1StandingsApp → string → string → jsval → F1StandingsApp :=
  if isSprint then updateSprintPrediction else updatePrediction.

(** ** Sample data *)

Definition mkRace (rnd : string) (sprintDate : option string) : Race :=
  {| round := rnd; raceName := "Round " +:+ rnd; Sprint := sprintDate |}.

Definition mkResult (driverId positionText : string) (pos pts : Z)
    : ResultEntry :=
  {| res_driverId := driverId; res_positionText := positionText;
     res_position := pos; res_points := pts |}.

Definition mkDriver (driverId : string) (pos pts : Z) : Driver :=
  {| d_driverId := driverId; d_code := driverId;
     d_position := pos; d_currentPoints := pts |}.

Definition emptyManager : PredictionManager :=
  {| userPredictions := ∅; sprintPredictions := ∅ |}.

(** Two races held, both won by [max_verstappen]. [albon] did not take
    part in round 1 and finished second in round 2, which makes him second
    in the championship with 18 points. Nothing predicted, nothing
    collapsed. *)
Definition appAfterRound2 : F1StandingsApp :=
  {| predictionManager := emptyManager;
     tableRenderer := {| collapsedColumns := ∅ |};
     driversData := [mkDriver "max_verstappen" 1 50; mkDriver "albon" 2 18];
     racesData := [mkRace "1" None; mkRace "2" None];
     raceResults :=
       {["1" := [mkResult "max_verstappen" "1" 1 25];
         "2" := [mkResult "max_verstappen" "1" 1 25;
                 mkResult "albon" "2" 2 18]]};
     sprintResults := ∅;
     qualifyingResults := ∅;
     sprintQualifyingResults := ∅ |}.

(** A reserve driver, 21st in the championship, given position 3 by the
    user for the coming round 6. *)
Definition managerWithReserve : PredictionManager :=
  {| userPredictions := {["6" := [("reserve", JNumber (Num 3))]]};
     sprintPredictions := ∅ |}.

Definition standingsWithReserve : list Driver :=
  [mkDriver "max_verstappen" 1 100; mkDriver "reserve" 21 0].

(** Round 5 as held: the winner also took a bonus point (26, where the
    scoring table gives 25), [albon] retired. *)
Definition round5Results : gmap string (list ResultEntry) :=
  {["5" := [mkResult "max_verstappen" "1" 1 26; mkResult "albon" "R" 18 0]]}.

(** A sprint weekend still to come whose race column the user collapsed by
    its header; the sprint column is still visible. *)
Definition sprintWeekend : list Race := [mkRace "1" (Some "2025-03-22")].

Definition raceColumnCollapsed : TableRenderer :=
  {| collapsedColumns := {["race-1"]} |}.

(** Two races to come, the first collapsed by its header. *)
Definition twoFutureRaces : list Race := [mkRace "1" None; mkRace "2" None].

Definition allVisible : TableRenderer := {| collapsedColumns := ∅ |}.

(** Rounds 1, 2, 3 without sprints; the race column of round 2 collapsed. *)
Definition threeRaces : list Race :=
  [mkRace "1" None; mkRace "2" None; mkRace "3" None].

Definition round2Collapsed : TableRenderer :=
  {| collapsedColumns := {["race-2"]} |}.

(** Hamilton predicted first and Verstappen second, for the race and for
    the sprint of round 7. *)
Definition hamiltonFirst : obj :=
  [("hamilton", JNumber (Num 1)); ("max_verstappen", JNumber (Num 2))].

Definition appWithPicks : F1StandingsApp :=
  {| predictionManager :=
       {| userPredictions := {["7" := hamiltonFirst]};
          sprintPredictions := {["7" := hamiltonFirst]} |};
     tableRenderer := allVisible;
     driversData := [mkDriver "max_verstappen" 1 100; mkDriver "hamilton" 2 90];
     racesData := [mkRace "7" (Some "2025-05-03")];
     raceResults := ∅;
     sprintResults := ∅;
     qualifyingResults := ∅;
     sprintQualifyingResults := ∅ |}.

(** ** Notions used for the calculator *)

(** Every column of the schedule is collapsed. *)
Definition allCollapsed (collapsed : gset string) (races : list Race) : Prop :=
  ∀ r, r ∈ races →
    raceKey (round r) ∈ collapsed
    ∧ (hasSprint r = true → sprintKey (round r) ∈ collapsed).

(** No entry of the result sets carries negative points. *)
Definition pointsNonNegative
    (results : gmap string (list ResultEntry)) : Prop :=
  ∀ rnd entries e, results !! rnd = Some entries → e ∈ entries →
    0 ≤ res_points e.

(** The driver has an actual result in every column of the schedule. *)
Definition resultEverywhere (driverId : string) (races : list Race)
    (raceResults sprintResults : gmap string (list ResultEntry)) : Prop :=
  ∀ r, r ∈ races →
    is_Some (getDriverRaceResult driverId (round r) raceResults)
    ∧ (hasSprint r = true →
       is_Some (getDriverSprintResult driverId (round r) sprintResults)).

(** Number of sprint weekends of a schedule. *)
Definition sprintCount (races : list Race) : Z :=
  Z.of_nat (length (filter (λ r, hasSprint r = true) races)).

(** A sprint weekend and a plain one, both still to come, with every column
    collapsed. *)
Definition mixedSchedule : list Race :=
  [mkRace "1" (Some "2025-03-22"); mkRace "2" None].

Definition everythingCollapsed : gset string :=
  {["sprint-1"; "race-1"; "race-2"]}.

(** What a visible race column adds to the total: the stored points of the
    driver's result, else the table's points for the predicted position. *)
Definition raceColumnPoints (driverId : string)
    (raceResults : gmap string (list ResultEntry))
    (predicted : string → string → bool → jsnum) (rnd : string) : Z :=
  match getDriverRaceResult driverId rnd raceResults with
  | Some res => points res
  | None =>
      match predicted driverId rnd false with
      | Num p => if bool_decide (0 < p) then getRacePoints p else 0
      | NaN => 0
      end
  end.

Definition sprintColumnPoints (driverId : string)
    (sprintResults : gmap string (list ResultEntry))
    (predicted : string → string → bool → jsnum) (rnd : string) : Z :=
  match getDriverSprintResult driverId rnd sprintResults with
  | Some res => points res
  | None =>
      match predicted driverId rnd true with
      | Num p => if bool_decide (0 < p) then getSprintPoints p else 0
      | NaN => 0
      end
  end.

(** The driver has no actual result in any column of the schedule. *)
Definition noResults (driverId : string) (races : list Race)
    (raceResults sprintResults : gmap string (list ResultEntry)) : Prop :=
  ∀ r, r ∈ races →
    getDriverRaceResult driverId (round r) raceResults = None
    ∧ getDriverSprintResult driverId (round r) sprintResults = None.

(** ** PredictionManager: export and import *)

(** The object [exportPredictions] returns and [importPredictions] reads;
    a field that is missing (or not an object) is [None]. *)
Record PredictionData : Type := {
  data_userPredictions : option (gmap string obj);
  data_sprintPredictions : option (gmap string obj)
}.

Definition exportPredictions (this : PredictionManager) : PredictionData :=
  {| data_userPredictions := Some (userPredictions this);
     data_sprintPredictions := Some (sprintPredictions this) |}.

(** [if (data.userPredictions) this.userPredictions = data.userPredictions],
    and the same for the sprint map. *)
Definition importPredictions (this : PredictionManager)
    (data : PredictionData) : PredictionManager :=
  {| userPredictions :=
       default (userPredictions this) (data_userPredictions data);
     sprintPredictions :=
       default (sprintPredictions this) (data_sprintPredictions data) |}.

(** The value a stored entry resolves to. *)
Definition entryPosition (v : jsval) : jsnum :=
  if decide (v = JNull) then Num 0 else parseInt v.

(** Qualifying for round 7 is published, with Hamilton on pole. *)
Definition round7Qualifying : gmap string (list QualifyingEntry) :=
  {["7" := [ {| q_driverId := "hamilton"; q_position := 1 |};
             {| q_driverId := "max_verstappen"; q_position := 2 |} ]]}.

(** ** Notions used for the column toggles *)

(** The columns the past toggle acts on: the race column of every resolved
    race and the sprint column of every resolved sprint. *)
Definition pastColumnsOf
    (raceResults sprintResults : gmap string (list ResultEntry))
    (r : Race) : gset string :=
  (if hasResults raceResults (round r) then {[raceKey (round r)]} else ∅)
  ∪ (if hasSprint r && hasResults sprintResults (round r)
     then {[sprintKey (round r)]} else ∅).

Definition pastColumns (races : list Race)
    (raceResults sprintResults : gmap string (list ResultEntry)) : gset string :=
  ⋃ (pastColumnsOf raceResults sprintResults <$> races).

(** Some resolved race of the schedule has its race column visible. *)
Definition pastRaceVisible (collapsed : gset string) (races : list Race)
    (raceResults : gmap string (list ResultEntry)) : Prop :=
  ∃ r, r ∈ races ∧ hasResults raceResults (round r) = true
       ∧ raceKey (round r) ∉ collapsed.

(** ** TableRenderer.render: the standings *)

(** [{...driver, calculatedPoints: calculatePoints(driver.driverId)}] *)
Record DriverWithPoints : Type := {
  driver : Driver;
  calculatedPoints : Z
}.

(** The comparator of [render]: [b.calculatedPoints - a.calculatedPoints]. *)
Definition comparePoints (a b : DriverWithPoints) : Z :=
  calculatedPoints b - calculatedPoints a.

(** The rows of the table: the drivers with their calculated points, sorted
    by the comparator. *)
Definition driversWithPoints (driversData : list Driver)
    (calculatePoints : string → Z) : list DriverWithPoints :=
  js_sort comparePoints
    (map (λ d, {| driver := d;
                  calculatedPoints := calculatePoints (d_driverId d) |})
       driversData).

(** The rows [renderTable] hands to the renderer. *)
Definition standings (this : F1StandingsApp) : list DriverWithPoints :=
  driversWithPoints (driversData this) (calculatePoints this).

(** Row [i] of [renderBody]:
    [driversWithPoints[0].calculatedPoints - driver.calculatedPoints]. *)
Definition gapToLeader (rows : list DriverWithPoints) (i : nat) : option Z :=
  leader ← rows !! 0%nat;
  row ← rows !! i;
  Some (calculatedPoints leader - calculatedPoints row).

(** [i > 0 ? driversWithPoints[i - 1].calculatedPoints
            - driver.calculatedPoints : 0] *)
Definition gapToAhead (rows : list DriverWithPoints) (i : nat) : option Z :=
  row ← rows !! i;
  match i with
  | O => Some 0
  | S j =>
      ahead ← rows !! j;
      Some (calculatedPoints ahead - calculatedPoints row)
  end.

(** ** F1ApiService.loadAllData and F1StandingsApp.loadData *)

(** An entry of the provider's driver standings; [position] and [points]
    are the integers their strings spell. *)
Record StandingEntry : Type := {
  st_driverId : string;
  st_code : string;
  st_position : Z;
  st_points : Z
}.

(** What the provider answers during one load. The standings and the
    schedule may fail (the request throws); the per-round requests catch
    their errors and answer [null], here [None], as they do when the
    provider has no data for the round. A round is asked about once per
    kind of data (the schedule lists each round once), so the answers are
    given by round. *)
Record Provider : Type := {
  api_getDriverStandings : option (list StandingEntry);
  api_getRaces : option (list Race);
  api_getRaceResults : string → option (list ResultEntry);
  api_getSprintResults : string → option (list ResultEntry);
  api_getQualifyingResults : string → option (list QualifyingEntry);
  api_getSprintQualifyingResults : string → option (list QualifyingEntry)
}.

(** The object [loadAllData] returns. *)
Record LoadedData : Type := {
  ld_standings : list StandingEntry;
  ld_races : list Race;
  ld_raceResults : gmap string (list ResultEntry);
  ld_sprintResults : gmap string (list ResultEntry);
  ld_qualifyingResults : gmap string (list QualifyingEntry);
  ld_sprintQualifyingResults : gmap string (list QualifyingEntry)
}.

(** [if (answer) map[round] = answer] *)
Definition storeAnswer {V : Type} (m : gmap string V) (rnd : string)
    (answer : option V) : gmap string V :=
  match answer with
  | Some v => <[rnd := v]> m
  | None => m
  end.

(** Body of the [for (const race of races)] loop of [loadAllData]. *)
Definition loadRace (api : Provider) (acc : LoadedData) (race : Race)
    : LoadedData :=
  let rnd := round race in
  let raceResults :=
    storeAnswer (ld_raceResults acc) rnd (api_getRaceResults api rnd) in
  let sprintResults :=
    if hasSprint race
    then storeAnswer (ld_sprintResults acc) rnd (api_getSprintResults api rnd)
    else ld_sprintResults acc in
  let qualifyingResults :=
    if negb (hasResults raceResults rnd)
    then storeAnswer (ld_qualifyingResults acc) rnd
           (api_getQualifyingResults api rnd)
    else ld_qualifyingResults acc in
  let sprintQualifyingResults :=
    if hasSprint race && negb (hasResults sprintResults rnd)
    then storeAnswer (ld_sprintQualifyingResults acc) rnd
           (api_getSprintQualifyingResults api rnd)
    else ld_sprintQualifyingResults acc in
  {| ld_standings := ld_standings acc;
     ld_races := ld_races acc;
     ld_raceResults := raceResults;
     ld_sprintResults := sprintResults;
     ld_qualifyingResults := qualifyingResults;
     ld_sprintQualifyingResults := sprintQualifyingResults |}.

Definition loadAllData (api : Provider) : option LoadedData :=
  standings ← api_getDriverStandings api;
  races ← api_getRaces api;
  Some (fold_left (loadRace api) races
          {| ld_standings := standings;
             ld_races := races;
             ld_raceResults := ∅;
             ld_sprintResults := ∅;
             ld_qualifyingResults := ∅;
             ld_sprintQualifyingResults := ∅ |}).

(** [loadData]: on success the six data fields are replaced; when
    [loadAllData] throws, only the error message is shown. *)
Definition loadData (this : F1StandingsApp) (api : Provider)
    : F1StandingsApp :=
  match loadAllData api with
  | Some data =>
      renderTable
        {| predictionManager := predictionManager this;
           tableRenderer := tableRenderer this;
           driversData :=
             map (λ s, {| d_driverId := st_driverId s;
                          d_code := st_code s;
                          d_position := st_position s;
                          d_currentPoints := st_points s |})
               (ld_standings data);
           racesData := ld_races data;
           raceResults := ld_raceResults data;
           sprintResults := ld_sprintResults data;
           qualifyingResults := ld_qualifyingResults data;
           sprintQualifyingResults := ld_sprintQualifyingResults data |}
  | None => this
  end.

(** A provider in mid-season: round 1 is held, round 2 (a sprint weekend)
    has its qualifying sessions published. *)
Definition midSeason : Provider :=
  {| api_getDriverStandings := Some [ {| st_driverId := "max_verstappen";
                                         st_code := "VER";
                                         st_position := 1;
                                         st_points := 25 |} ];
     api_getRaces := Some [mkRace "1" None; mkRace "2" (Some "2025-03-22")];
     api_getRaceResults := λ rnd,
       if decide (rnd = "1") then Some [mkResult "max_verstappen" "1" 1 25]
       else None;
     api_getSprintResults := λ _, None;
     api_getQualifyingResults := λ rnd,
       Some [ {| q_driverId := "max_verstappen"; q_position := 1 |} ];
     api_getSprintQualifyingResults := λ rnd,
       if decide (rnd = "2")
       then Some [ {| q_driverId := "max_verstappen"; q_position := 2 |} ]
       else None |}.

(** A provider that is down. *)
Definition providerDown : Provider :=
  {| api_getDriverStandings := None;
     api_getRaces := None;
     api_getRaceResults := λ _, None;
     api_getSprintResults := λ _, None;
     api_getQualifyingResults := λ _, None;
     api_getSprintQualifyingResults := λ _, None |}.

(** The rounds of a schedule, and those of its sprint weekends. *)
Definition scheduleRounds (races : list Race) : list string :=
  round <$> races.

Definition sprintRounds (races : list Race) : list string :=
  round <$> filter (λ r, hasSprint r = true) races.

(** ** Sequences of writes *)

(** One use of a dropdown: the event-kind, the driver, the round and the
    value selected. *)
Record PredictionWrite : Type := {
  w_isSprint : bool;
  w_driverId : string;
  w_round : string;
  w_position : jsval
}.

(** The writes applied one after the other. *)
Definition applyWrites (this : F1StandingsApp) (ws : list PredictionWrite)
    : F1StandingsApp :=
  fold_left
    (λ app w, writePrediction (w_isSprint w) app (w_driverId w) (w_round w)
                (w_position w))
    ws this.

(** Three presses of a bulk toggle. *)
Definition toggleAllFutureThrice (this : TableRenderer) (races : list Race)
    (raceResults sprintResults : gmap string (list ResultEntry))
    : TableRenderer :=
  (TR.toggleAllFuture
     (toggleAllFutureTwice this races raceResults sprintResults)
     races raceResults sprintResults).1.

(** Before round 7, a sprint weekend whose qualifying is published (Hamilton
    first, Verstappen second); nothing predicted yet, nothing collapsed. *)
Definition appBeforeRound7 : F1StandingsApp :=
  {| predictionManager := emptyManager;
     tableRenderer := allVisible;
     driversData := [mkDriver "max_verstappen" 1 100; mkDriver "hamilton" 2 90];
     racesData := [mkRace "7" (Some "2025-05-03")];
     raceResults := ∅;
     sprintResults := ∅;
     qualifyingResults := round7Qualifying;
     sprintQualifyingResults := ∅ |}.

(** * Properties *)

(** ** Objects *)

Lemma obj_lookup_set (o : obj) (k k' : string) (v : jsval) :
  obj_lookup (obj_set o k v) k'
  = if decide (k = k') then Some v else obj_lookup o k'.
Proof.
  induction o as [|[k0 v0] o IH]; simpl.
  - repeat case_decide; congruence.
  - destruct (decide (k0 = k)) as [->|Hne]; simpl.
    + repeat case_decide; congruence.
    + rewrite IH. repeat case_decide; congruence.
Qed.

Lemma obj_get_set (o : obj) (k k' : string) (v : jsval) :
  obj_get (obj_set o k v) k' = if decide (k = k') then v else obj_get o k'.
Proof. unfold obj_get. rewrite obj_lookup_set. by case_decide. Qed.

Lemma obj_set_keys (o : obj) (k : string) (v : jsval) :
  (obj_set o k v).*1 = if decide (k ∈ o.*1) then o.*1 else o.*1 ++ [k].
Proof.
  induction o as [|[k0 v0] o IH].
  - destruct (decide (k ∈ ([] : obj).*1)) as [Hin|_]; [| done].
    by apply elem_of_nil in Hin.
  - cbn [obj_set]. destruct (decide (k0 = k)) as [->|Hne].
    + destruct (decide (k ∈ ((k, v0) :: o).*1)) as [_|Hn]; [done |].
      exfalso. apply Hn. simpl. left.
    + rewrite !fmap_cons, IH. cbn [fst].
      destruct (decide (k ∈ o.*1)) as [Hin|Hin];
        destruct (decide (k ∈ k0 :: o.*1)) as [Hin'|Hin']; try done.
      * exfalso. apply Hin'. by right.
      * apply elem_of_cons in Hin' as [?|?]; congruence.
Qed.

Lemma obj_set_wf (o : obj) (k : string) (v : jsval) :
  obj_wf o → obj_wf (obj_set o k v).
Proof.
  unfold obj_wf. intros Hwf. rewrite obj_set_keys.
  case_decide; [done |].
  apply NoDup_app. split_and!; [done | | apply NoDup_singleton].
  intros x Hx ->%list_elem_of_singleton. done.
Qed.

Lemma obj_lookup_None (o : obj) (k : string) :
  obj_lookup o k = None ↔ k ∉ o.*1.
Proof.
  induction o as [|[k0 v0] o IH]; simpl.
  - split; [intros _; apply not_elem_of_nil | done].
  - rewrite not_elem_of_cons. destruct (decide (k0 = k)) as [->|Hne].
    + split; [done | by intros [? _]].
    + rewrite IH. split; [by intros ? | by intros [_ ?]].
Qed.

Lemma obj_lookup_elem_of (o : obj) (k : string) (v : jsval) :
  obj_wf o → (k, v) ∈ o ↔ obj_lookup o k = Some v.
Proof.
  unfold obj_wf. induction o as [|[k0 v0] o IH]; simpl; intros Hwf.
  - split; [by intros ?%elem_of_nil | done].
  - apply NoDup_cons in Hwf as [Hk0 Hwf].
    rewrite elem_of_cons, IH by done.
    destruct (decide (k0 = k)) as [->|Hne].
    + apply obj_lookup_None in Hk0. split.
      * intros [[= ->]|Hl]; [done | congruence].
      * intros [= ->]. by left.
    + split; [intros [[= ? ?]|]; [congruence | done] | by right].
Qed.

(** ** C8: actual results *)

Lemma find_driver_result (driverId : string) (entries : list ResultEntry) :
  (∃ e, e ∈ entries ∧ res_driverId e = driverId) →
  ∃ result, result ∈ entries ∧ res_driverId result = driverId
    ∧ List.find (λ r, bool_decide (res_driverId r = driverId)) entries
      = Some result.
Proof.
  induction entries as [|e0 entries IH]; intros (e & Hin & Hid).
  - by apply elem_of_nil in Hin.
  - simpl. destruct (decide (res_driverId e0 = driverId)) as [Heq|Hne].
    + exists e0. rewrite bool_decide_eq_true_2 by done.
      split_and!; [left | done | done].
    + rewrite bool_decide_eq_false_2 by done.
      apply elem_of_cons in Hin as [->|Hin]; [done |].
      destruct IH as (r & ? & ? & ?); [by eauto |].
      exists r. split_and!; [by right | done | done].
Qed.

(** C8. When the round/event-kind is resolved and the participant has an
    entry in its result set, the resolver (race and sprint alike) returns an
    object built from an entry of that participant with [isActual = true],
    the points exactly as the entry stores them (no scoring-table lookup),
    and, for an entry whose [positionText] is "R", position 0: an actual
    DNF, not the [None] of a participant who did not take part. *)
Theorem actual_result_as_stored (driverId rnd : string)
    (results : gmap string (list ResultEntry)) (entries : list ResultEntry) :
  results !! rnd = Some entries →
  (∃ e, e ∈ entries ∧ res_driverId e = driverId) →
  ∃ result,
    result ∈ entries ∧ res_driverId result = driverId
    ∧ getDriverRaceResult driverId rnd results = Some (resultOf result)
    ∧ getDriverSprintResult driverId rnd results = Some (resultOf result)
    ∧ isActual (resultOf result) = true
    ∧ points (resultOf result) = res_points result
    ∧ (res_positionText result = "R" → position (resultOf result) = 0)
    ∧ (res_positionText result ≠ "R" →
       position (resultOf result) = res_position result).
Proof.
  intros Hrnd Hentry.
  destruct (find_driver_result _ _ Hentry) as (result & Hin & Hid & Hfind).
  exists result. unfold getDriverRaceResult, getDriverSprintResult.
  rewrite Hrnd, Hfind. unfold resultOf; simpl.
  split_and!; try done.
  - intros HR. by rewrite decide_True.
  - intros HR. by rewrite decide_False.
Qed.

(** Round 5: the retired [albon] resolves to an actual result at position 0,
    and the winner keeps the 26 points the provider stored. *)
Lemma actual_result_as_stored_witness :
  (∃ result,
     result ∈ [mkResult "max_verstappen" "1" 1 26; mkResult "albon" "R" 18 0]
     ∧ res_driverId result = "albon"
     ∧ getDriverRaceResult "albon" "5" round5Results = Some (resultOf result)
     ∧ getDriverSprintResult "albon" "5" round5Results = Some (resultOf result)
     ∧ isActual (resultOf result) = true
     ∧ points (resultOf result) = res_points result
     ∧ (res_positionText result = "R" → position (resultOf result) = 0)
     ∧ (res_positionText result ≠ "R" →
        position (resultOf result) = res_position result))
  ∧ getDriverRaceResult "albon" "5" round5Results
    = Some {| position := 0; points := 0; isActual := true |}
  ∧ getDriverRaceResult "max_verstappen" "5" round5Results
    = Some {| position := 1; points := 26; isActual := true |}
  ∧ getRacePoints 1 = 25.
Proof.
  split; [| by vm_compute].
  apply (actual_result_as_stored "albon" "5" round5Results
           [mkResult "max_verstappen" "1" 1 26; mkResult "albon" "R" 18 0]).
  - reflexivity.
  - exists (mkResult "albon" "R" 18 0). split; [| reflexivity].
    apply list_elem_of_further, list_elem_of_here.
Defined.

(** ** C1: totals over a resolved round the driver missed *)

(** C1 (the code departs from it). Round 1 is resolved and [albon] has no
    entry in its result set, yet [calculateTotalPoints] counts 18 points for
    him there, 36 in all where his results sum to 18:
    [getDriverRaceResult] answers [null] both for an unresolved round and
    for an absent driver, and the total then falls through to the predicted
    position (here the championship position 2). The cell renderer tests
    [raceResults[round]] first and shows "-" for such a driver. *)
Theorem absent_driver_scored_from_fallback :
  hasResults (raceResults appAfterRound2) "1" = true
  ∧ getDriverRaceResult "albon" "1" (raceResults appAfterRound2) = None
  ∧ predictedPositionOf appAfterRound2 "albon" "1" false = Num 2
  ∧ addRacePoints "albon" (raceResults appAfterRound2)
      (sprintResults appAfterRound2)
      (collapsedColumns (tableRenderer appAfterRound2))
      (predictedPositionOf appAfterRound2) 0 (mkRace "1" None) = 18
  ∧ calculatePoints appAfterRound2 "albon" = 36.
Proof. by vm_compute. Qed.

(** ** C7, C2 and X28: the resolver's priority chain *)

(** C7 (the code departs from it). Round 7 is to come and nothing is
    stored. The user picks second place for Verstappen and then second
    place for Hamilton: the swap gives Verstappen "Hamilton's old
    position", which is [predictions["hamilton"]] of a driver without an
    entry, [undefined]. Verstappen now has an explicit entry in the store,
    so the chain stops at it; it is neither a position nor the [null] of
    "no prediction", and the resolver answers [parseInt(undefined)], which
    is [NaN]: not the stored position and not the 0 of "no prediction",
    and not what the priority chain gives under any reading of the entry.
    (Without the entry the chain would have given him 2, from the published
    qualifying.) The resolver tests [pos === null] only, and its own
    documentation promises a position or the null option. *)
Theorem swapped_out_holder_resolves_to_NaN :
  let picked :=
    updatePrediction appBeforeRound7 "max_verstappen" "7" (JDecimal 2) in
  let after := updatePrediction picked "hamilton" "7" (JDecimal 2) in
  predictedPositionOf picked "max_verstappen" "7" false = Num 2
  ∧ userPredictions (predictionManager after)
    = {["7" := [("max_verstappen", JUndefined);
                ("hamilton", JNumber (Num 2))]]}
  ∧ storedEntry (predictionManager after) false "7" "max_verstappen"
    = Some JUndefined
  ∧ getPredictedPosition (predictionManager after) "max_verstappen" "7" false
      (qualifyingResults after) (sprintQualifyingResults after)
      (driversData after) = NaN
  ∧ predictedPositionOf after "hamilton" "7" false = Num 2
  ∧ predictedPositionOf appBeforeRound7 "max_verstappen" "7" false = Num 2
  ∧ (∀ stored : option StoredPrediction,
       getPredictedPosition (predictionManager after) "max_verstappen" "7"
         false (qualifyingResults after) (sprintQualifyingResults after)
         (driversData after)
       ≠ Num (priorityChain stored
                (qualifyingPosition (qualifyingResults after) "7"
                   "max_verstappen")
                (championshipPosition (driversData after) "max_verstappen"))).
Proof. repeat split; try by vm_compute. Qed.

(** X28. Whenever the stored entry for (round, event-kind, participant), if
    there is one, is a position or the explicit "no prediction", the
    predicted position is the one the priority chain gives: the stored
    position (0 for "no prediction"); with nothing stored, the qualifying
    position when qualifying data is published (0 when the participant is
    not in it); otherwise the championship position when it is at most 20,
    and 0 when it is larger or the participant is unknown. *)
Theorem resolver_follows_priority_chain (pm : PredictionManager)
    (driverId rnd : string) (isSprint : bool)
    (qual squal : gmap string (list QualifyingEntry)) (drivers : list Driver) :
  (∀ v, storedEntry pm isSprint rnd driverId = Some v →
        is_Some (asStoredPrediction v)) →
  getPredictedPosition pm driverId rnd isSprint qual squal drivers
  = Num (priorityChain
           (storedEntry pm isSprint rnd driverId ≫= asStoredPrediction)
           (qualifyingPosition (if isSprint then squal else qual) rnd driverId)
           (championshipPosition drivers driverId)).
Proof.
  unfold getPredictedPosition, storedEntry, qualifyingPosition,
    championshipPosition.
  set (m := if isSprint then sprintPredictions pm else userPredictions pm).
  assert (match m !! rnd with
          | Some o => obj_lookup o driverId
          | None => None
          end = m !! rnd ≫= (λ o, obj_lookup o driverId)) as ->.
  { by destruct (m !! rnd). }
  intros Hentry.
  destruct (m !! rnd ≫= (λ o, obj_lookup o driverId)) as [v|]; simpl.
  - destruct (Hentry v eq_refl) as [e He].
    destruct v as [| |[|z]|z]; simpl in He; try done.
  - destruct ((if isSprint then squal else qual) !! rnd) as [entries|]; simpl.
    + by destruct (List.find _ entries).
    + destruct (List.find _ drivers) as [d|]; simpl; [| done].
      destruct (decide (d_position d ≤ 20)) as [Hle|Hgt].
      * by rewrite bool_decide_eq_false_2 by lia.
      * by rewrite bool_decide_eq_true_2 by lia.
Qed.

(** Hamilton, once second place is picked for him in round 7, resolves to
    2 although he qualified first. *)
Lemma resolver_follows_priority_chain_witness :
  getPredictedPosition
    (predictionManager
       (updatePrediction appBeforeRound7 "hamilton" "7" (JDecimal 2)))
    "hamilton" "7" false round7Qualifying ∅
    (driversData appBeforeRound7)
  = Num 2.
Proof.
  apply (resolver_follows_priority_chain
           (predictionManager
              (updatePrediction appBeforeRound7 "hamilton" "7" (JDecimal 2)))
           "hamilton" "7" false round7Qualifying ∅
           (driversData appBeforeRound7)).
  intros v Hv. vm_compute in Hv. injection Hv as <-. by eexists.
Defined.

(** C2 as stated fails: the reserve driver is 21st in the championship and
    round 6 is unresolved, but the stored prediction comes first in the
    chain and the predicted position is 3. *)
Lemma reserve_prediction_overrides_fallback :
  championshipPosition standingsWithReserve "reserve" = Some 21
  ∧ storedEntry managerWithReserve false "6" "reserve" = Some (JNumber (Num 3))
  ∧ getPredictedPosition managerWithReserve "reserve" "6" false ∅ ∅
      standingsWithReserve = Num 3.
Proof. by vm_compute. Qed.

(** C2, amended. For a participant whose championship position is above 20,
    the predicted position is 0 whenever the store has no explicit entry
    for (round, event-kind, participant) and no qualifying data is published
    for that round and event-kind. *)
Theorem past_20_defaults_to_zero (pm : PredictionManager)
    (driverId rnd : string) (isSprint : bool)
    (qual squal : gmap string (list QualifyingEntry)) (drivers : list Driver)
    (c : Z) :
  championshipPosition drivers driverId = Some c →
  20 < c →
  storedEntry pm isSprint rnd driverId = None →
  (if isSprint then squal else qual) !! rnd = None →
  getPredictedPosition pm driverId rnd isSprint qual squal drivers = Num 0.
Proof.
  unfold championshipPosition, storedEntry, getPredictedPosition.
  intros Hc Hgt Hstored Hqual.
  assert (match (if isSprint then sprintPredictions pm else userPredictions pm)
                  !! rnd with
          | Some o => obj_lookup o driverId
          | None => None
          end = None) as ->.
  { by destruct (_ !! rnd). }
  rewrite Hqual.
  destruct (List.find _ drivers) as [d|]; [| done].
  injection Hc as ->.
  by rewrite bool_decide_eq_true_2.
Qed.

(** The reserve driver with nothing stored and nothing published. *)
Lemma past_20_defaults_to_zero_witness :
  getPredictedPosition emptyManager "reserve" "6" false ∅ ∅
    standingsWithReserve = Num 0.
Proof.
  apply (past_20_defaults_to_zero emptyManager "reserve" "6" false ∅ ∅
           standingsWithReserve 21).
  - reflexivity.
  - lia.
  - reflexivity.
  - reflexivity.
Defined.

(** ** C3 and C4: the future toggle *)

Lemma anyFutureVisible_iff (collapsed : gset string)
    (rr : gmap string (list ResultEntry)) (races : list Race) :
  TR.anyFutureVisible collapsed rr races = true
  ↔ futureRaceVisible collapsed races rr.
Proof.
  unfold futureRaceVisible. induction races as [|r races IH]; simpl.
  - split; [done | by intros (? & ?%elem_of_nil & _)].
  - destruct (hasResults rr (round r)) eqn:Hres; simpl.
    + rewrite IH. split.
      * intros (r' & ? & ? & ?). exists r'. split_and!; [by right | done | done].
      * intros (r' & [->|?]%elem_of_cons & ? & ?); [congruence | by eauto].
    + destruct (decide (raceKey (round r) ∈ collapsed)) as [Hin|Hin].
      * rewrite bool_decide_eq_true_2 by done. simpl. rewrite IH. split.
        -- intros (r' & ? & ? & ?).
           exists r'. split_and!; [by right | done | done].
        -- intros (r' & [->|?]%elem_of_cons & ? & ?); [done | by eauto].
      * rewrite bool_decide_eq_false_2 by done. simpl.
        split; [intros _ | done]. exists r. split_and!; [left | done | done].
Qed.

Lemma toggleFutureStep_eq (collapse : bool)
    (rr sr : gmap string (list ResultEntry)) (collapsed : gset string)
    (r : Race) :
  TR.toggleFutureStep collapse rr sr collapsed r
  = if collapse then collapsed ∪ futureColumnsOf rr sr r
    else collapsed ∖ futureColumnsOf rr sr r.
Proof.
  unfold TR.toggleFutureStep, TR.setCollapsed, futureColumnsOf.
  destruct collapse, (hasResults rr (round r)),
    (hasSprint r && negb (hasResults sr (round r))); simpl; set_solver.
Qed.

Lemma toggleFuture_loop_eq (collapse : bool)
    (rr sr : gmap string (list ResultEntry)) (races : list Race)
    (collapsed : gset string) :
  fold_left (TR.toggleFutureStep collapse rr sr) races collapsed
  = if collapse then collapsed ∪ ⋃ (futureColumnsOf rr sr <$> races)
    else collapsed ∖ ⋃ (futureColumnsOf rr sr <$> races).
Proof.
  revert collapsed. induction races as [|r races IH]; intros collapsed; simpl.
  - destruct collapse; set_solver.
  - rewrite IH, toggleFutureStep_eq. destruct collapse; set_solver.
Qed.

Lemma toggleAllFuture_eq (this : TableRenderer) (races : list Race)
    (rr sr : gmap string (list ResultEntry)) :
  TR.toggleAllFuture this races rr sr
  = let collapse := TR.anyFutureVisible (collapsedColumns this) rr races in
    ({| collapsedColumns :=
          if collapse
          then collapsedColumns this ∪ futureColumns races rr sr
          else collapsedColumns this ∖ futureColumns races rr sr |},
     collapse).
Proof.
  unfold TR.toggleAllFuture, futureColumns. simpl.
  rewrite toggleFuture_loop_eq. unfold TR.setCollapsed.
  destruct (TR.anyFutureVisible _ _ _); do 2 f_equal; set_solver.
Qed.

(** Which keys the future toggle acts on. *)
Lemma elem_of_futureColumns (key : string) (races : list Race)
    (rr sr : gmap string (list ResultEntry)) :
  key ∈ futureColumns races rr sr
  ↔ (∃ r, r ∈ races ∧ hasResults rr (round r) = false
          ∧ key = raceKey (round r))
    ∨ (∃ r, r ∈ races ∧ hasSprint r = true ∧ hasResults sr (round r) = false
            ∧ key = sprintKey (round r))
    ∨ key = "predicted-points" ∨ key = "predicted-standing".
Proof.
  unfold futureColumns.
  rewrite elem_of_union, elem_of_union_list. split.
  - intros [(X & (r & -> & Hr)%list_elem_of_fmap & Hkey)|Hsyn].
    + unfold futureColumnsOf in Hkey.
      apply elem_of_union in Hkey as [Hkey|Hkey].
      * destruct (hasResults rr (round r)) eqn:?; [set_solver |].
        left. exists r. split_and!; [done | done | set_solver].
      * destruct (hasSprint r) eqn:?, (hasResults sr (round r)) eqn:?;
          simpl in Hkey; [| set_solver..].
        right; left. exists r. split_and!; [done | done | done | set_solver].
    + right; right. set_solver.
  - intros [(r & Hr & Hres & ->)|[(r & Hr & Hs & Hres & ->)|Hsyn]].
    + left. exists (futureColumnsOf rr sr r).
      split; [apply list_elem_of_fmap; by eauto |].
      unfold futureColumnsOf. rewrite Hres. set_solver.
    + left. exists (futureColumnsOf rr sr r).
      split; [apply list_elem_of_fmap; by eauto |].
      unfold futureColumnsOf. rewrite Hs, Hres. simpl. set_solver.
    + right. set_solver.
Qed.

(** C3 as stated fails: with the race column of a coming sprint weekend
    collapsed and its sprint column visible, an unresolved column is visible,
    yet the toggle expands (and answers [false]). *)
Lemma visible_sprint_column_not_inspected :
  futureColumnVisible (collapsedColumns raceColumnCollapsed) sprintWeekend ∅ ∅
  ∧ TR.toggleAllFuture raceColumnCollapsed sprintWeekend ∅ ∅
    = ({| collapsedColumns := ∅ |}, false).
Proof.
  split; [| by vm_compute].
  right. exists (mkRace "1" (Some "2025-03-22")).
  split_and!; [left | done | done |].
  apply (proj1 (bool_decide_eq_false _)). by vm_compute.
Qed.

(** C3, amended. [toggleAllFuture] collapses every unresolved race column,
    every unresolved sprint column and the two synthetic projected columns
    exactly when some unresolved race has its race column visible (sprint
    columns are not inspected); otherwise it expands all of them; and the
    boolean it returns is true iff it collapsed. *)
Theorem toggleAllFuture_by_race_columns (this : TableRenderer)
    (races : list Race) (rr sr : gmap string (list ResultEntry)) :
  let after := TR.toggleAllFuture this races rr sr in
  (after.2 = true ↔ futureRaceVisible (collapsedColumns this) races rr)
  ∧ collapsedColumns after.1
    = if after.2
      then collapsedColumns this ∪ futureColumns races rr sr
      else collapsedColumns this ∖ futureColumns races rr sr.
Proof.
  rewrite toggleAllFuture_eq. simpl. split; [apply anyFutureVisible_iff | done].
Qed.

Lemma future_race_key_touched (r : Race) (races : list Race)
    (rr sr : gmap string (list ResultEntry)) :
  r ∈ races → hasResults rr (round r) = false →
  raceKey (round r) ∈ futureColumns races rr sr.
Proof.
  intros Hr Hres. apply elem_of_futureColumns. left. by exists r.
Qed.

Lemma toggleAllFutureTwice_eq (this : TableRenderer) (races : list Race)
    (rr sr : gmap string (list ResultEntry)) :
  let C := collapsedColumns this in
  let F := futureColumns races rr sr in
  collapsedColumns (toggleAllFutureTwice this races rr sr)
  = if TR.anyFutureVisible C rr races then C ∖ F
    else if TR.anyFutureVisible (C ∖ F) rr races then C ∪ F
         else C ∖ F.
Proof.
  intros C F. unfold toggleAllFutureTwice.
  rewrite !toggleAllFuture_eq. cbn zeta. simpl. fold C F.
  destruct (TR.anyFutureVisible C rr races) eqn:Hvis.
  - destruct (TR.anyFutureVisible (C ∪ F) rr races) eqn:Hvis2.
    + apply anyFutureVisible_iff in Hvis2 as (r & Hr & Hres & Hout).
      exfalso. apply Hout, elem_of_union. right.
      by apply future_race_key_touched.
    + set_solver.
  - destruct (TR.anyFutureVisible (C ∖ F) rr races); [| set_solver].
    apply set_eq. intros x.
    rewrite !elem_of_union, elem_of_difference.
    destruct (decide (x ∈ F)); naive_solver.
Qed.

(** C4 as stated fails: from a state where one of two coming race columns
    is collapsed and the other visible, the first press collapses both and
    the second expands both; the collapsed column of the start is lost. *)
Lemma toggle_twice_loses_mixed_state :
  collapsedColumns
    (toggleAllFutureTwice raceColumnCollapsed twoFutureRaces ∅ ∅) = ∅
  ∧ "race-1" ∈ collapsedColumns raceColumnCollapsed
  ∧ collapsedColumns (toggleAllFutureTwice raceColumnCollapsed twoFutureRaces ∅ ∅)
    ≠ collapsedColumns raceColumnCollapsed.
Proof.
  assert (collapsedColumns
            (toggleAllFutureTwice raceColumnCollapsed twoFutureRaces ∅ ∅) = ∅)
    as Heq by (by vm_compute).
  rewrite Heq. split_and!; [done | set_solver |].
  intros Hempty. assert ("race-1" ∈ (∅ : gset string)) as Hin.
  { rewrite Hempty. set_solver. }
  set_solver.
Qed.

(** C4, amended. Two presses of the future toggle, with nothing else in
    between, give back the collapsed set they started from exactly when the
    columns the toggle acts on (unresolved race and sprint columns and the
    two synthetic projected columns) were all visible at the start, or were
    all collapsed and the schedule has an unresolved race. *)
Theorem toggleAllFuture_twice_round_trip (this : TableRenderer)
    (races : list Race) (rr sr : gmap string (list ResultEntry)) :
  collapsedColumns (toggleAllFutureTwice this races rr sr)
  = collapsedColumns this
  ↔ collapsedColumns this ∩ futureColumns races rr sr = ∅
    ∨ (futureColumns races rr sr ⊆ collapsedColumns this
       ∧ hasFutureRace races rr).
Proof.
  rewrite toggleAllFutureTwice_eq. cbn zeta.
  set (C := collapsedColumns this). set (F := futureColumns races rr sr).
  destruct (TR.anyFutureVisible C rr races) eqn:Hvis.
  - apply anyFutureVisible_iff in Hvis as (r & Hr & Hres & Hout).
    pose proof (future_race_key_touched r races rr sr Hr Hres) as HrF.
    fold F in HrF. split.
    + intros Heq. left. set_solver.
    + intros [Hdisj|[Hsub _]]; [set_solver |]. exfalso. by apply Hout, Hsub.
  - assert (∀ r, r ∈ races → hasResults rr (round r) = false →
                 raceKey (round r) ∈ C ∧ raceKey (round r) ∈ F) as Hall.
    { intros r Hr Hres. split; [| by apply future_race_key_touched].
      destruct (decide (raceKey (round r) ∈ C)); [done |].
      assert (TR.anyFutureVisible C rr races = true); [| congruence].
      apply anyFutureVisible_iff. by exists r. }
    destruct (TR.anyFutureVisible (C ∖ F) rr races) eqn:Hvis2.
    + apply anyFutureVisible_iff in Hvis2 as (r & Hr & Hres & _).
      destruct (Hall r Hr Hres) as [HrC HrF]. split.
      * intros Heq. right. split; [set_solver | by exists r].
      * intros [Hdisj|[Hsub _]]; [set_solver | set_solver].
    + split.
      * intros Heq. left. set_solver.
      * intros [Hdisj|[_ (r & Hr & Hres)]]; [set_solver |].
        destruct (Hall r Hr Hres) as [HrC HrF].
        assert (TR.anyFutureVisible (C ∖ F) rr races = true); [| congruence].
        apply anyFutureVisible_iff. exists r. split_and!; [done | done |].
        set_solver.
Qed.

(** ** C9: column order *)

Lemma compareCollapsed_pos (a b : Column) :
  0 < compareCollapsed a b ↔ isCollapsed a = true ∧ isCollapsed b = false.
Proof.
  unfold compareCollapsed.
  destruct (isCollapsed a), (isCollapsed b); simpl; split; try lia;
    try done; by intros [? ?].
Qed.

Lemma sort_insert_visible (x : Column) (sorted : list Column) :
  isCollapsed x = false →
  sort_insert compareCollapsed x sorted = x :: sorted.
Proof.
  intros Hx. destruct sorted as [|y rest]; simpl; [done |].
  rewrite bool_decide_eq_false_2; [done |].
  rewrite compareCollapsed_pos. intros [? _]. congruence.
Qed.

Lemma sort_insert_collapsed (x : Column) (vis col : list Column) :
  isCollapsed x = true →
  Forall (λ c, isCollapsed c = false) vis →
  Forall (λ c, isCollapsed c = true) col →
  sort_insert compareCollapsed x (vis ++ col) = vis ++ x :: col.
Proof.
  intros Hx Hvis Hcol. induction Hvis as [|y vis Hy _ IH]; simpl.
  - destruct Hcol as [|y col Hy _]; simpl; [done |].
    rewrite bool_decide_eq_false_2; [done |].
    rewrite compareCollapsed_pos. intros [_ ?]. congruence.
  - rewrite bool_decide_eq_true_2 by (by apply compareCollapsed_pos).
    by rewrite IH.
Qed.

Lemma js_sort_compareCollapsed (columns : list Column) :
  js_sort compareCollapsed columns = stablePartition columns.
Proof.
  unfold stablePartition. induction columns as [|x columns IH]; simpl; [done |].
  rewrite IH. destruct (isCollapsed x) eqn:Hx.
  - rewrite (filter_cons_False (λ c, isCollapsed c = false)) by congruence.
    rewrite (filter_cons_True (λ c, isCollapsed c = true)) by done.
    apply sort_insert_collapsed; [done | |];
      apply Forall_forall; by intros c [? _]%list_elem_of_filter.
  - rewrite (filter_cons_True (λ c, isCollapsed c = false)) by done.
    rewrite (filter_cons_False (λ c, isCollapsed c = true)) by congruence.
    by apply sort_insert_visible.
Qed.

(** A list ordered by [compareCollapsed] is its visible part followed by
    its collapsed part. *)
Lemma sorted_is_partition (out : list Column) :
  StronglySorted (λ a b, compareCollapsed a b ≤ 0) out →
  out = stablePartition out.
Proof.
  unfold stablePartition. induction 1 as [|x out Hsorted IH Hx]; [done |].
  destruct (isCollapsed x) eqn:Hcx.
  - rewrite (filter_cons_False (λ c, isCollapsed c = false)) by congruence.
    rewrite (filter_cons_True (λ c, isCollapsed c = true)) by done.
    assert (Forall (λ c, isCollapsed c = true) out) as Hall.
    { eapply Forall_impl; [exact Hx |]. simpl. intros c Hc.
      destruct (isCollapsed c) eqn:Hcc; [done |].
      exfalso. assert (0 < compareCollapsed x c); [| lia].
      by apply compareCollapsed_pos. }
    assert (filter (λ c, isCollapsed c = false) out = []) as ->.
    { clear -Hall. induction Hall as [|c out Hc _ IHa]; [done |].
      rewrite filter_cons_False by congruence. done. }
    assert (filter (λ c, isCollapsed c = true) out = out) as ->; [| done].
    clear -Hall. induction Hall as [|c out Hc _ IHa]; [done |].
    rewrite filter_cons_True by done. by rewrite IHa.
  - rewrite (filter_cons_True (λ c, isCollapsed c = false)) by done.
    rewrite (filter_cons_False (λ c, isCollapsed c = true)) by congruence.
    simpl. by rewrite <- IH.
Qed.

(** Every stable sort gives the same list as the model of [sort]. *)
Lemma stableSortOf_unique (columns out : list Column) :
  stableSortOf columns out → out = stablePartition columns.
Proof.
  intros [Hsorted Hstable].
  rewrite (sorted_is_partition out Hsorted).
  unfold stablePartition. by rewrite !Hstable.
Qed.

Lemma buildColumns_cons (collapsed : gset string) (r : Race)
    (races : list Race) (rr sr : gmap string (list ResultEntry)) :
  buildColumns collapsed (r :: races) rr sr
  = columnsOfRace collapsed rr sr r ++ buildColumns collapsed races rr sr.
Proof. done. Qed.

(** C9. The ordered column list is the chronological list (for each race in
    schedule order its sprint column, when the weekend has one, then its
    race column, each flagged collapsed iff its key is in the collapsed
    set) stably partitioned by the collapsed flag: the visible columns in
    their original order, then the collapsed ones in their original order.
    Any stable sort under the comparator gives that same list, and with
    rounds 1, 2, 3 and only race-2 collapsed the race columns come out in
    the order 1, 3, 2. *)
Theorem getOrderedColumns_stable_partition (this : TableRenderer)
    (races : list Race) (rr sr : gmap string (list ResultEntry)) :
  let chronological := buildColumns (collapsedColumns this) races rr sr in
  getOrderedColumns this races rr sr = stablePartition chronological
  ∧ (∀ out, stableSortOf chronological out →
            out = getOrderedColumns this races rr sr)
  ∧ map (λ c, (type c, col_round c, isCollapsed c)) chronological
    = concat (map (λ r,
        (if hasSprint r
         then [(sprint, round r,
                bool_decide (sprintKey (round r) ∈ collapsedColumns this))]
         else [])
        ++ [(race, round r,
             bool_decide (raceKey (round r) ∈ collapsedColumns this))]) races)
  ∧ map col_round (getOrderedColumns round2Collapsed threeRaces ∅ ∅)
    = ["1"; "3"; "2"].
Proof.
  intros chronological. unfold getOrderedColumns. fold chronological.
  rewrite js_sort_compareCollapsed. split_and!.
  - done.
  - apply stableSortOf_unique.
  - unfold chronological. clear. induction races as [|r races IH]; [done |].
    rewrite buildColumns_cons, map_app, IH. simpl. f_equal.
    unfold columnsOfRace. by destruct (hasSprint r).
  - by vm_compute.
Qed.

(** ** C5, C6, C10: swap-on-write *)

(** The write either carries a concrete position [p > 0], stored as the
    number [p], or stores a value that holds no concrete position. *)
Lemma toPos_cases (position : jsval) :
  (∃ p, 0 < p ∧ parseInt position = Num p
        ∧ toPos position = JNumber (Num p))
  ∨ (isPositive (toPos position) = false
     ∧ ∀ p, 0 < p → parseInt (toPos position) ≠ Num p).
Proof.
  unfold toPos.
  destruct position as [| |[|z]|z]; simpl;
    try (right; split; [done | by intros p _]).
  - destruct (decide (z = 0)) as [->|Hz]; simpl.
    + right. split; [done | by intros p _].
    + rewrite bool_decide_eq_false_2 by done. simpl.
      destruct (decide (0 < z)) as [Hpos|Hneg].
      * left. by exists z.
      * right. rewrite bool_decide_eq_false_2 by done.
        split; [done |]. intros p Hp [= ->]. lia.
  - destruct (decide (z = 0)) as [->|Hz]; simpl.
    + right. split; [done | by intros p _].
    + rewrite bool_decide_eq_false_2 by done. simpl.
      destruct (decide (0 < z)) as [Hpos|Hneg].
      * left. by exists z.
      * right. rewrite bool_decide_eq_false_2 by done.
        split; [done |]. intros p Hp [= ->]. lia.
Qed.

Lemma isPositive_Num (p : Z) :
  0 < p → isPositive (JNumber (Num p)) = true.
Proof. intros Hp. simpl. by rewrite bool_decide_eq_true_2. Qed.

Lemma strictEq_parseInt (v : jsval) (p : Z) :
  strictEq (JNumber (parseInt v)) (JNumber (Num p)) = true
  ↔ parseInt v = Num p.
Proof.
  simpl. destruct (parseInt v) as [|z]; [done |].
  rewrite bool_decide_eq_true. split; [by intros -> | by intros [= ->]].
Qed.

Lemma obj_lookup_Some_elem_of (o : obj) (k : string) (v : jsval) :
  obj_lookup o k = Some v → (k, v) ∈ o.
Proof.
  induction o as [|[k0 v0] o IH]; simpl; [done |].
  destruct (decide (k0 = k)) as [->|Hne].
  - intros [= ->]. left.
  - intros Hl. right. by apply IH.
Qed.

(** The loop finds the first entry of another driver that parses to [p]. *)
Lemma findConflict_Some (o : obj) (A B : string) (p : Z) :
  findConflict o A (JNumber (Num p)) = Some B ↔
  ∃ before vB after,
    o = before ++ (B, vB) :: after ∧ B ≠ A ∧ parseInt vB = Num p
    ∧ ∀ k v, (k, v) ∈ before → k = A ∨ parseInt v ≠ Num p.
Proof.
  induction o as [|[k0 v0] o IH]; cbn [findConflict].
  - split; [done |]. intros (before & ? & ? & Heq & _). by destruct before.
  - destruct (decide (k0 ≠ A ∧ parseInt v0 = Num p)) as [[Hk Hv]|Hno].
    + rewrite bool_decide_eq_true_2 by done.
      rewrite (proj2 (strictEq_parseInt v0 p)) by done. cbn [andb]. split.
      * intros [= <-]. exists [], v0, o. split_and!; try done.
        by intros k v ?%elem_of_nil.
      * intros (before & vB & after & Heq & HB & HvB & Hbefore).
        destruct before as [|[k1 v1] before]; simpl in Heq.
        -- by injection Heq as -> _ _.
        -- injection Heq as Hk1 Hv1 _. subst k1 v1.
           destruct (Hbefore k0 v0) as [?|?]; [left | done | done].
    + assert (bool_decide (k0 ≠ A)
              && strictEq (JNumber (parseInt v0)) (JNumber (Num p)) = false)
        as ->.
      { apply not_true_is_false.
        intros [Hk Hv]%andb_true_iff. apply Hno. split.
        - by apply bool_decide_eq_true in Hk.
        - by apply strictEq_parseInt. }
      rewrite IH. split.
      * intros (before & vB & after & -> & HB & HvB & Hbefore).
        exists ((k0, v0) :: before), vB, after. split_and!; try done.
        intros k v [[= -> ->]|Hin]%elem_of_cons; [| by apply Hbefore].
        destruct (decide (k0 = A)); [by left | right].
        intros Hv. by apply Hno.
      * intros (before & vB & after & Heq & HB & HvB & Hbefore).
        destruct before as [|[k1 v1] before]; simpl in Heq.
        -- injection Heq as Hk1 Hv1 _. subst k0 v0. by destruct Hno.
        -- injection Heq as Hk1 Hv1 Ho. subst k1 v1 o.
           exists before, vB, after. split_and!; try done.
           intros k v Hin. apply Hbefore. by right.
Qed.

Lemma findConflict_None (o : obj) (A : string) (p : Z) :
  findConflict o A (JNumber (Num p)) = None →
  ∀ k v, (k, v) ∈ o → k = A ∨ parseInt v ≠ Num p.
Proof.
  induction o as [|[k0 v0] o IH]; cbn [findConflict]; intros Hfind k v Hin.
  - by apply elem_of_nil in Hin.
  - destruct (bool_decide (k0 ≠ A)
              && strictEq (JNumber (parseInt v0)) (JNumber (Num p))) eqn:Htest;
      [done |].
    apply elem_of_cons in Hin as [[= -> ->]|Hin]; [| by apply IH].
    destruct (decide (k0 = A)); [by left | right].
    intros Hv. apply andb_false_iff in Htest as [Hk|Hs].
    + by apply bool_decide_eq_false in Hk.
    + apply strictEq_parseInt in Hv. congruence.
Qed.

Lemma holds_set (o : obj) (k k' : string) (v : jsval) (q : Z) :
  holds (obj_set o k v) k' q
  ↔ if decide (k = k') then parseInt v = Num q else holds o k' q.
Proof.
  unfold holds. rewrite obj_lookup_set. case_decide; [| done].
  split; [by intros (? & [= <-] & ?) | by eauto].
Qed.

Lemma holds_obj_get (o : obj) (k : string) (q : Z) :
  parseInt (obj_get o k) = Num q → holds o k q.
Proof.
  unfold obj_get, holds. destruct (obj_lookup o k) as [v|]; [by eauto | done].
Qed.

(** The two shapes of a write: a swap with the first conflicting holder
    followed by the write, or the write alone. *)
Lemma swapWrite_cases (o : obj) (A : string) (position : jsval) :
  (∃ p B, 0 < p ∧ parseInt position = Num p
          ∧ findConflict o A (JNumber (Num p)) = Some B
          ∧ swapWrite o A position
            = obj_set (obj_set o B (obj_get o A)) A (JNumber (Num p)))
  ∨ (swapWrite o A position = obj_set o A (toPos position)
     ∧ ((∃ p, 0 < p ∧ parseInt position = Num p
              ∧ toPos position = JNumber (Num p)
              ∧ findConflict o A (JNumber (Num p)) = None)
        ∨ ∀ p, 0 < p → parseInt (toPos position) ≠ Num p)).
Proof.
  unfold swapWrite.
  destruct (toPos_cases position) as [(p & Hp & Hparse & ->)|[-> Hnone]].
  - rewrite isPositive_Num by done.
    destruct (findConflict o A (JNumber (Num p))) as [B|] eqn:Hfind.
    + left. by exists p, B.
    + right. split; [done |]. left. by exists p.
  - right. split; [done |]. by right.
Qed.

Lemma swapWrite_wf (o : obj) (A : string) (position : jsval) :
  obj_wf o → obj_wf (swapWrite o A position).
Proof.
  intros Hwf.
  destruct (swapWrite_cases o A position)
    as [(p & B & _ & _ & _ & ->)|[-> _]]; by repeat apply obj_set_wf.
Qed.

Lemma holds_swap (o : obj) (A B k : string) (p q : Z) :
  holds (obj_set (obj_set o B (obj_get o A)) A (JNumber (Num p))) k q
  → (k = A ∧ q = p)
    ∨ (k ≠ A ∧ k = B ∧ holds o A q)
    ∨ (k ≠ A ∧ k ≠ B ∧ holds o k q).
Proof.
  intros H. apply holds_set in H.
  destruct (decide (A = k)) as [<-|HA].
  - left. simpl in H. by injection H as <-.
  - right. apply holds_set in H.
    destruct (decide (B = k)) as [<-|HB].
    + left. split_and!; [done | done | by apply holds_obj_get].
    + right. by split_and!.
Qed.

Lemma swapWrite_one_to_one (o : obj) (A : string) (position : jsval) :
  obj_wf o → one_to_one o → one_to_one (swapWrite o A position).
Proof.
  intros Hwf Hinv.
  destruct (swapWrite_cases o A position)
    as [(p & B & Hp & _ & Hfind & ->)|[-> [(p & Hp & _ & -> & Hfind)|Hnone]]].
  - apply findConflict_Some in Hfind
      as (before & vB & after & -> & HBA & HvB & _).
    assert (holds (before ++ (B, vB) :: after) B p) as HB.
    { exists vB. split; [| done]. apply obj_lookup_elem_of; [done |].
      apply elem_of_app. right. left. }
    set (o := before ++ (B, vB) :: after) in *.
    intros k1 k2 q Hq H1 H2.
    apply holds_swap in H1 as [[-> ->]|[(HA1 & -> & H1)|(HA1 & HB1 & H1)]];
      apply holds_swap in H2 as [[-> E2]|[(HA2 & -> & H2)|(HA2 & HB2 & H2)]];
      subst; try done.
    + by apply (Hinv A B p).
    + exfalso. apply HB2. by apply (Hinv k2 B p).
    + by apply (Hinv B A p).
    + exfalso. apply HA2. by apply (Hinv k2 A q).
    + exfalso. apply HB1. by apply (Hinv k1 B p).
    + exfalso. apply HA1. by apply (Hinv k1 A q).
    + by apply (Hinv k1 k2 q).
  - intros k1 k2 q Hq H1 H2.
    apply holds_set in H1, H2. simpl in H1, H2.
    assert (∀ k, k ≠ A → ¬ holds o k p) as Hfree.
    { intros k Hk (v & Hl & Hv).
      destruct (findConflict_None o A p Hfind k v); [| done | done].
      by apply obj_lookup_Some_elem_of. }
    destruct (decide (A = k1)) as [<-|HA1], (decide (A = k2)) as [<-|HA2];
      [done | | |].
    + injection H1 as <-. exfalso. by apply (Hfree k2).
    + injection H2 as <-. exfalso. by apply (Hfree k1).
    + by apply (Hinv k1 k2 q).
  - intros k1 k2 q Hq H1 H2.
    apply holds_set in H1, H2.
    destruct (decide (A = k1)) as [<-|HA1]; [by destruct (Hnone q) |].
    destruct (decide (A = k2)) as [<-|HA2]; [by destruct (Hnone q) |].
    by apply (Hinv k1 k2 q).
Qed.

Lemma setSlot_twice (m : gmap string obj) (A B rnd : string) (v1 v2 : jsval) :
  setSlot (setSlot m B rnd v1) A rnd v2
  = <[rnd := obj_set (obj_set (default [] (m !! rnd)) B v1) A v2]> m.
Proof.
  unfold setSlot. rewrite lookup_insert_eq. simpl. apply insert_insert_eq.
Qed.

(** A write, race or sprint, replaces the prediction object of its round in
    the map of its event-kind by [swapWrite] of that object (an empty object
    when the round had none), and leaves the other map and the renderer
    as they were. *)
Lemma writePrediction_effect (isSprint : bool) (this : F1StandingsApp)
    (A rnd : string) (position : jsval) :
  let after := writePrediction isSprint this A rnd position in
  let m := predictionMap isSprint (predictionManager this) in
  predictionMap isSprint (predictionManager after)
    = <[rnd := swapWrite (default [] (m !! rnd)) A position]> m
  ∧ predictionMap (negb isSprint) (predictionManager after)
    = predictionMap (negb isSprint) (predictionManager this)
  ∧ tableRenderer after = tableRenderer this.
Proof.
  destruct isSprint; simpl;
    unfold updateSprintPrediction, updatePrediction, swapWrite, renderTable;
    simpl.
  - destruct (isPositive (toPos position)); [| done].
    destruct (findConflict _ A (toPos position)); [| done].
    simpl. by rewrite setSlot_twice.
  - destruct (isPositive (toPos position)); [| done].
    destruct (findConflict _ A (toPos position)); [| done].
    simpl. by rewrite setSlot_twice.
Qed.

Lemma store_ok_write (m : gmap string obj) (A rnd : string)
    (position : jsval) :
  store_ok m →
  store_ok (<[rnd := swapWrite (default [] (m !! rnd)) A position]> m).
Proof.
  intros Hok rnd' o'. rewrite lookup_insert.
  destruct (decide (rnd = rnd')) as [<-|Hne]; [| apply Hok].
  intros [= <-].
  assert (obj_wf (default [] (m !! rnd))
          ∧ one_to_one (default [] (m !! rnd))) as [Hwf Hinv].
  { destruct (m !! rnd) as [o|] eqn:Hm; simpl; [by apply (Hok rnd) |].
    split; [apply NoDup_nil_2 |]. by intros k1 k2 p _ (v & ? & _). }
  split; [by apply swapWrite_wf | by apply swapWrite_one_to_one].
Qed.

Lemma hamiltonFirst_ok : store_ok {["7" := hamiltonFirst]}.
Proof.
  intros rnd o [<- <-]%lookup_singleton_Some. split.
  - unfold obj_wf. simpl. apply NoDup_cons. split; [| apply NoDup_singleton].
    by intros [=]%list_elem_of_singleton.
  - intros k1 k2 p Hp (v1 & Hl1 & Hv1) (v2 & Hl2 & Hv2).
    unfold hamiltonFirst in Hl1, Hl2. simpl in Hl1, Hl2.
    repeat case_decide; simplify_eq/=; done.
Qed.

(** C6. Starting from prediction maps in which every round's object is a
    well-formed object with at most one holder of each concrete position,
    a race write and a sprint write of any value (a position, 0 or its
    string, null, anything else) leave both maps in that condition. *)
Theorem update_preserves_one_to_one (this : F1StandingsApp)
    (driverId rnd : string) (position : jsval) :
  store_ok (userPredictions (predictionManager this)) →
  store_ok (sprintPredictions (predictionManager this)) →
  let raceWrite := updatePrediction this driverId rnd position in
  let sprintWrite := updateSprintPrediction this driverId rnd position in
  store_ok (userPredictions (predictionManager raceWrite))
  ∧ store_ok (sprintPredictions (predictionManager raceWrite))
  ∧ store_ok (userPredictions (predictionManager sprintWrite))
  ∧ store_ok (sprintPredictions (predictionManager sprintWrite)).
Proof.
  intros Hrace Hsprint raceWrite sprintWrite.
  destruct (writePrediction_effect false this driverId rnd position
            : userPredictions (predictionManager raceWrite) = _
              ∧ sprintPredictions (predictionManager raceWrite)
                = sprintPredictions (predictionManager this)
              ∧ _)
    as (Hr1 & Hr2 & _).
  destruct (writePrediction_effect true this driverId rnd position
            : sprintPredictions (predictionManager sprintWrite) = _
              ∧ userPredictions (predictionManager sprintWrite)
                = userPredictions (predictionManager this)
              ∧ _)
    as (Hs1 & Hs2 & _).
  rewrite Hr1, Hr2, Hs1, Hs2.
  split_and!; [by apply store_ok_write | done | done | by apply store_ok_write].
Qed.

(** Hamilton moved from first to second where Verstappen is second. *)
Lemma update_preserves_one_to_one_witness :
  let raceWrite := updatePrediction appWithPicks "hamilton" "7" (JDecimal 2) in
  let sprintWrite :=
    updateSprintPrediction appWithPicks "hamilton" "7" (JDecimal 2) in
  store_ok (userPredictions (predictionManager raceWrite))
  ∧ store_ok (sprintPredictions (predictionManager raceWrite))
  ∧ store_ok (userPredictions (predictionManager sprintWrite))
  ∧ store_ok (sprintPredictions (predictionManager sprintWrite)).
Proof.
  apply (update_preserves_one_to_one appWithPicks "hamilton" "7" (JDecimal 2)).
  - exact hamiltonFirst_ok.
  - exact hamiltonFirst_ok.
Defined.

(** Under the one-to-one invariant the holder of [p] is the one the loop
    finds. *)
Lemma sole_holder_found_first (o : obj) (A B : string) (p : Z) :
  obj_wf o → one_to_one o → 0 < p → B ≠ A → holds o B p →
  findConflict o A (JNumber (Num p)) = Some B.
Proof.
  intros Hwf Hinv Hp HBA (v & Hl & Hv).
  destruct (findConflict o A (JNumber (Num p))) as [B'|] eqn:Hfind.
  - apply findConflict_Some in Hfind
      as (before & vB & after & Ho & _ & HvB & _).
    f_equal. apply (Hinv B' B p); [done | | by exists v].
    exists vB. split; [| done]. apply obj_lookup_elem_of; [done |].
    rewrite Ho. apply elem_of_app. right. left.
  - destruct (findConflict_None o A p Hfind B v); [| done | done].
    by apply obj_lookup_Some_elem_of.
Qed.

Lemma toPos_positive (position : jsval) (p : Z) :
  parseInt position = Num p → 0 < p → toPos position = JNumber (Num p).
Proof.
  intros Hparse Hp. unfold toPos.
  destruct position as [| |[|z]|z]; simplify_eq/=;
    by rewrite bool_decide_eq_false_2 by lia.
Qed.



(** C10. A write, race or sprint, changes nothing but the prediction object
    of its round in the map of its event-kind: the objects of all other
    rounds, the whole map of the other event-kind and the collapsed-column
    set are as before. In the object of its round every entry is as before
    except the written participant's and, when there is a swap, that of one
    other participant, who held the written position. *)
Theorem write_frame (isSprint : bool) (this : F1StandingsApp)
    (driverId rnd : string) (position : jsval) :
  let after := writePrediction isSprint this driverId rnd position in
  let m := predictionMap isSprint (predictionManager this) in
  let m' := predictionMap isSprint (predictionManager after) in
  (∀ rnd', rnd' ≠ rnd → m' !! rnd' = m !! rnd')
  ∧ predictionMap (negb isSprint) (predictionManager after)
    = predictionMap (negb isSprint) (predictionManager this)
  ∧ collapsedColumns (tableRenderer after)
    = collapsedColumns (tableRenderer this)
  ∧ ∃ (o' : obj) (swapped : option string),
      m' !! rnd = Some o'
      ∧ (∀ B, swapped = Some B →
              B ≠ driverId
              ∧ ∃ vB, (B, vB) ∈ default [] (m !! rnd)
                      ∧ parseInt vB = parseInt position)
      ∧ ∀ d, d ≠ driverId → swapped ≠ Some d →
             obj_lookup o' d = obj_lookup (default [] (m !! rnd)) d.
Proof.
  intros after m m'.
  pose proof (writePrediction_effect isSprint this driverId rnd position)
    as Heff.
  cbv zeta in Heff. fold after m m' in Heff.
  destruct Heff as (Heff & Hother & Htr).
  split_and!.
  - intros rnd' Hne. rewrite Heff. by apply lookup_insert_ne.
  - done.
  - by rewrite Htr.
  - rewrite Heff, lookup_insert_eq.
    set (o := default [] (m !! rnd)).
    destruct (swapWrite_cases o driverId position)
      as [(p & B & Hp & Hparse & Hfind & Heq)|[Heq _]].
    + exists (swapWrite o driverId position), (Some B).
      split_and!; [done | |].
      * intros ? [= <-].
        apply findConflict_Some in Hfind
          as (before & vB & after' & Ho & HBA & HvB & Hfirst).
        split; [done |]. exists vB. split; [| congruence].
        rewrite Ho. apply elem_of_app. right. left.
      * intros d Hd HdB. rewrite Heq, !obj_lookup_set.
        rewrite decide_False by done. rewrite decide_False; [done |].
        intros ->. done.
    + exists (swapWrite o driverId position), None.
      split_and!; [done | done |].
      intros d Hd _. rewrite Heq, obj_lookup_set. by rewrite decide_False.
Qed.

(** * Further properties of the code *)

(** ** Scoring tables *)

Lemma race_points_cases (p : Z) :
  (p ≤ 0 ∨ 11 ≤ p) ∧ getRacePoints p = 0
  ∨ (1 ≤ p ≤ 10
     ∧ getRacePoints p
       = nth (Z.to_nat p) [0; 25; 18; 15; 12; 10; 8; 6; 4; 2; 1] 0).
Proof.
  destruct p as [|p|p]; [left; split; [lia | done] | | left; split; [lia | done]].
  do 4 (try destruct p as [p|p|]);
    first [ right; split; [lia | reflexivity]
          | left; split; [lia | reflexivity] ].
Qed.

Lemma sprint_points_cases (p : Z) :
  (p ≤ 0 ∨ 9 ≤ p) ∧ getSprintPoints p = 0
  ∨ (1 ≤ p ≤ 8
     ∧ getSprintPoints p = nth (Z.to_nat p) [0; 8; 7; 6; 5; 4; 3; 2; 1] 0).
Proof.
  destruct p as [|p|p]; [left; split; [lia | done] | | left; split; [lia | done]].
  do 4 (try destruct p as [p|p|]);
    first [ right; split; [lia | reflexivity]
          | left; split; [lia | reflexivity] ].
Qed.

Ltac table_cases p :=
  let H := fresh "Hcases" in
  let Hr := fresh "Hrace" in
  let Hs := fresh "Hsprint" in
  assert (p ≤ 0 ∨ p = 1 ∨ p = 2 ∨ p = 3 ∨ p = 4 ∨ p = 5 ∨ p = 6 ∨ p = 7
          ∨ p = 8 ∨ p = 9 ∨ p = 10 ∨ 11 ≤ p) as H by lia;
  destruct (race_points_cases p) as [[? Hr]|[? Hr]];
  destruct (sprint_points_cases p) as [[? Hs]|[? Hs]];
  try rewrite Hr; try rewrite Hs; clear Hr Hs;
  repeat (destruct H as [H|H]); subst; simpl; try lia.

Lemma race_points_bounds (p : Z) : 0 ≤ getRacePoints p ≤ 25.
Proof. table_cases p. Qed.

Lemma sprint_points_bounds (p : Z) : 0 ≤ getSprintPoints p ≤ 8.
Proof. table_cases p. Qed.

(** X1. The scoring tables: a race position scores exactly when it is in
    1..10 and a sprint position exactly when it is in 1..8; no position
    scores less than 0 or more than 25 (8 in a sprint), and a sprint never
    pays more than the race for the same position. *)
Theorem scoring_tables_range (p : Z) :
  (0 < getRacePoints p ↔ 1 ≤ p ≤ 10)
  ∧ (0 < getSprintPoints p ↔ 1 ≤ p ≤ 8)
  ∧ 0 ≤ getSprintPoints p ≤ 8
  ∧ getSprintPoints p ≤ getRacePoints p ≤ 25.
Proof. table_cases p. Qed.

(** X2. Both tables are monotone: from position 1 on, a better position
    never scores fewer points than a worse one, and strictly more while the
    worse one is still in the points. *)
Theorem scoring_tables_monotone (p q : Z) :
  1 ≤ p → p < q →
  getRacePoints q ≤ getRacePoints p
  ∧ getSprintPoints q ≤ getSprintPoints p
  ∧ (q ≤ 10 → getRacePoints q < getRacePoints p)
  ∧ (q ≤ 8 → getSprintPoints q < getSprintPoints p).
Proof.
  intros Hp Hq.
  destruct (race_points_cases q) as [[Hq' Hrq]|[Hq' Hrq]];
    destruct (sprint_points_cases q) as [[Hq'' Hsq]|[Hq'' Hsq]];
    rewrite Hrq, Hsq; clear Hrq Hsq.
  - pose proof (race_points_bounds p). pose proof (sprint_points_bounds p).
    lia.
  - lia.
  - assert (q = 9 ∨ q = 10) as [->| ->] by lia; simpl; table_cases p.
  - assert (q = 2 ∨ q = 3 ∨ q = 4 ∨ q = 5 ∨ q = 6 ∨ q = 7 ∨ q = 8)
      as Hc by lia.
    repeat (destruct Hc as [Hc|Hc]); subst q; simpl; table_cases p.
Qed.

Lemma scoring_tables_monotone_witness :
  getRacePoints 4 ≤ getRacePoints 2
  ∧ getSprintPoints 4 ≤ getSprintPoints 2
  ∧ (4 ≤ 10 → getRacePoints 4 < getRacePoints 2)
  ∧ (4 ≤ 8 → getSprintPoints 4 < getSprintPoints 2).
Proof. apply (scoring_tables_monotone 2 4); lia. Defined.

(** ** Totals *)

Section Totals.
Context (driverId : string)
        (rr sr : gmap string (list ResultEntry))
        (up sp : gmap string obj).

(** The loop body adds the race's contribution to the running total. *)
Lemma addRacePoints_acc (collapsed : gset string)
    (predicted : string → string → bool → jsnum) (acc : Z) (r : Race) :
  addRacePoints driverId rr sr collapsed predicted acc r
  = acc + addRacePoints driverId rr sr collapsed predicted 0 r.
Proof.
  unfold addRacePoints.
  repeat match goal with
         | |- context [if ?b then _ else _] => destruct b
         | |- context [match ?x with _ => _ end] => destruct x
         end; lia.
Qed.

Lemma total_fold_acc (collapsed : gset string)
    (predicted : string → string → bool → jsnum) (races : list Race) (acc : Z) :
  fold_left (addRacePoints driverId rr sr collapsed predicted) races acc
  = acc + calculateTotalPoints driverId races rr sr up sp collapsed predicted.
Proof.
  unfold calculateTotalPoints. revert acc.
  induction races as [|r races IH]; intros acc; simpl; [lia |].
  rewrite IH, (IH (addRacePoints _ _ _ _ _ 0 r)), addRacePoints_acc. lia.
Qed.

Lemma total_cons (collapsed : gset string)
    (predicted : string → string → bool → jsnum) (r : Race)
    (races : list Race) :
  calculateTotalPoints driverId (r :: races) rr sr up sp collapsed predicted
  = addRacePoints driverId rr sr collapsed predicted 0 r
    + calculateTotalPoints driverId races rr sr up sp collapsed predicted.
Proof.
  unfold calculateTotalPoints at 1. simpl. apply total_fold_acc.
Qed.

Lemma driver_result_points (d rnd : string)
    (results : gmap string (list ResultEntry)) (res : DriverResult) :
  pointsNonNegative results →
  getDriverRaceResult d rnd results = Some res → 0 ≤ points res.
Proof.
  unfold getDriverRaceResult. intros Hnn.
  destruct (results !! rnd) as [entries|] eqn:Hr; [| done].
  destruct (List.find _ entries) as [e|] eqn:Hf; [| done].
  intros [= <-]. simpl. apply (Hnn rnd entries e Hr).
  apply list_elem_of_In. by apply find_some in Hf as [? _].
Qed.

Lemma driver_sprint_result_eq (d rnd : string)
    (results : gmap string (list ResultEntry)) :
  getDriverSprintResult d rnd results = getDriverRaceResult d rnd results.
Proof. done. Qed.



(** What one race adds: the points of its sprint column and of its race
    column, each counted only while the column is visible. *)
Lemma addRacePoints_columns (collapsed : gset string)
    (predicted : string → string → bool → jsnum) (r : Race) :
  addRacePoints driverId rr sr collapsed predicted 0 r
  = (if hasSprint r && negb (bool_decide (sprintKey (round r) ∈ collapsed))
     then sprintColumnPoints driverId sr predicted (round r) else 0)
    + (if negb (bool_decide (raceKey (round r) ∈ collapsed))
       then raceColumnPoints driverId rr predicted (round r) else 0).
Proof.
  unfold addRacePoints, sprintColumnPoints, raceColumnPoints.
  repeat match goal with
         | |- context [if ?b then _ else _] => destruct b
         | |- context [match ?x with _ => _ end] => destruct x
         end; lia.
Qed.

Lemma raceColumnPoints_nonneg
    (predicted : string → string → bool → jsnum) (rnd : string) :
  pointsNonNegative rr → 0 ≤ raceColumnPoints driverId rr predicted rnd.
Proof.
  intros Hnn. unfold raceColumnPoints.
  destruct (getDriverRaceResult _ _ rr) as [res|] eqn:Hres.
  - by apply (driver_result_points driverId rnd rr).
  - destruct (predicted _ _ false) as [|p]; [done |].
    pose proof (race_points_bounds p). case_bool_decide; lia.
Qed.

Lemma sprintColumnPoints_nonneg
    (predicted : string → string → bool → jsnum) (rnd : string) :
  pointsNonNegative sr → 0 ≤ sprintColumnPoints driverId sr predicted rnd.
Proof.
  intros Hnn. unfold sprintColumnPoints.
  destruct (getDriverSprintResult _ _ sr) as [res|] eqn:Hres.
  - by apply (driver_result_points driverId rnd sr).
  - destruct (predicted _ _ true) as [|p]; [done |].
    pose proof (sprint_points_bounds p). case_bool_decide; lia.
Qed.

End Totals.

(** X3. With every column of the schedule collapsed the total is 0,
    whatever the results and the predictions are. *)
Theorem total_all_collapsed (driverId : string) (races : list Race)
    (rr sr : gmap string (list ResultEntry)) (up sp : gmap string obj)
    (collapsed : gset string) (predicted : string → string → bool → jsnum) :
  allCollapsed collapsed races →
  calculateTotalPoints driverId races rr sr up sp collapsed predicted = 0.
Proof.
  induction races as [|r races IH]; intros Hall; [done |].
  rewrite total_cons, IH, addRacePoints_columns.
  - destruct (Hall r) as [Hrace Hsprint]; [left |].
    rewrite (bool_decide_eq_true_2 _ Hrace). simpl.
    destruct (hasSprint r); [| done].
    by rewrite (bool_decide_eq_true_2 _ (Hsprint eq_refl)).
  - intros r' Hr'. apply Hall. by right.
Qed.

Lemma total_all_collapsed_witness :
  calculateTotalPoints "albon" mixedSchedule round5Results ∅ ∅ ∅
    everythingCollapsed (λ _ _ _, Num 1) = 0.
Proof.
  apply total_all_collapsed.
  intros r Hr. unfold mixedSchedule in Hr.
  apply elem_of_cons in Hr as [->|Hr];
    [| apply list_elem_of_singleton in Hr as ->];
    split; intros; refine (proj1 (bool_decide_eq_true _) _); by vm_compute.
Defined.

(** X4. When no stored result carries negative points, no total is
    negative. *)
Theorem total_non_negative (driverId : string) (races : list Race)
    (rr sr : gmap string (list ResultEntry)) (up sp : gmap string obj)
    (collapsed : gset string) (predicted : string → string → bool → jsnum) :
  pointsNonNegative rr → pointsNonNegative sr →
  0 ≤ calculateTotalPoints driverId races rr sr up sp collapsed predicted.
Proof.
  intros Hrr Hsr. induction races as [|r races IH]; [done |].
  rewrite total_cons, addRacePoints_columns.
  pose proof (raceColumnPoints_nonneg driverId rr predicted (round r) Hrr).
  pose proof (sprintColumnPoints_nonneg driverId sr predicted (round r) Hsr).
  destruct (hasSprint r && _), (negb _); lia.
Qed.

Lemma total_non_negative_witness :
  0 ≤ calculateTotalPoints "albon" [mkRace "5" None; mkRace "6" None]
        round5Results ∅ ∅ ∅ ∅ (λ _ _ _, Num 3).
Proof.
  apply total_non_negative.
  - unfold round5Results.
    intros rnd entries e [<- <-]%lookup_singleton_Some Hin.
    apply elem_of_cons in Hin as [->|Hin];
      [| apply list_elem_of_singleton in Hin as ->]; simpl; lia.
  - intros rnd entries e Hl. by rewrite lookup_empty in Hl.
Defined.

(** X5. The total of a schedule is the sum of the totals of its parts: each
    race adds its own columns, independently of the races around it. *)
Theorem total_of_concatenation (driverId : string)
    (races1 races2 : list Race)
    (rr sr : gmap string (list ResultEntry)) (up sp : gmap string obj)
    (collapsed : gset string) (predicted : string → string → bool → jsnum) :
  calculateTotalPoints driverId (races1 ++ races2) rr sr up sp collapsed predicted
  = calculateTotalPoints driverId races1 rr sr up sp collapsed predicted
    + calculateTotalPoints driverId races2 rr sr up sp collapsed predicted.
Proof.
  induction races1 as [|r races1 IH]; [done |].
  rewrite <- app_comm_cons, !total_cons, IH. lia.
Qed.

(** X6. While no stored result carries negative points, collapsing more
    columns never raises a total. *)
Theorem collapsing_lowers_total (driverId : string) (races : list Race)
    (rr sr : gmap string (list ResultEntry)) (up sp : gmap string obj)
    (collapsed collapsed' : gset string)
    (predicted : string → string → bool → jsnum) :
  pointsNonNegative rr → pointsNonNegative sr →
  collapsed ⊆ collapsed' →
  calculateTotalPoints driverId races rr sr up sp collapsed' predicted
  ≤ calculateTotalPoints driverId races rr sr up sp collapsed predicted.
Proof.
  intros Hrr Hsr Hsub. induction races as [|r races IH]; [done |].
  rewrite !total_cons, !addRacePoints_columns.
  pose proof (raceColumnPoints_nonneg driverId rr predicted (round r) Hrr).
  pose proof (sprintColumnPoints_nonneg driverId sr predicted (round r) Hsr).
  assert (∀ key, bool_decide (key ∈ collapsed) = true →
                 bool_decide (key ∈ collapsed') = true) as Hmono.
  { intros key Hin%bool_decide_eq_true. apply bool_decide_eq_true. auto. }
  pose proof (Hmono (raceKey (round r))).
  pose proof (Hmono (sprintKey (round r))).
  destruct (hasSprint r),
    (bool_decide (raceKey (round r) ∈ collapsed)),
    (bool_decide (raceKey (round r) ∈ collapsed')),
    (bool_decide (sprintKey (round r) ∈ collapsed)),
    (bool_decide (sprintKey (round r) ∈ collapsed'));
    simpl; try lia; try (by exfalso; auto).
Qed.

Lemma collapsing_lowers_total_witness :
  calculateTotalPoints "max_verstappen" [mkRace "5" None; mkRace "6" None]
    round5Results ∅ ∅ ∅ {["race-5"]} (λ _ _ _, Num 3)
  ≤ calculateTotalPoints "max_verstappen" [mkRace "5" None; mkRace "6" None]
      round5Results ∅ ∅ ∅ ∅ (λ _ _ _, Num 3).
Proof.
  apply collapsing_lowers_total.
  - unfold round5Results.
    intros rnd entries e [<- <-]%lookup_singleton_Some Hin.
    apply elem_of_cons in Hin as [->|Hin];
      [| apply list_elem_of_singleton in Hin as ->]; simpl; lia.
  - intros rnd entries e Hl. by rewrite lookup_empty in Hl.
  - apply empty_subseteq.
Defined.

(** X7. For a driver with an actual result in every column of the schedule
    the total does not depend on the predictions at all. *)
Theorem total_of_actual_results (driverId : string) (races : list Race)
    (rr sr : gmap string (list ResultEntry))
    (up sp up' sp' : gmap string obj) (collapsed : gset string)
    (predicted predicted' : string → string → bool → jsnum) :
  resultEverywhere driverId races rr sr →
  calculateTotalPoints driverId races rr sr up sp collapsed predicted
  = calculateTotalPoints driverId races rr sr up' sp' collapsed predicted'.
Proof.
  intros Hres. induction races as [|r races IH]; [done |].
  rewrite !total_cons, !addRacePoints_columns, IH.
  - destruct (Hres r) as [[res Hrace] Hsprint]; [left |].
    unfold raceColumnPoints, sprintColumnPoints. rewrite Hrace.
    destruct (hasSprint r); [| done].
    destruct (Hsprint eq_refl) as [res' ->]. done.
  - intros r' Hr'. apply Hres. by right.
Qed.

Lemma total_of_actual_results_witness :
  calculateTotalPoints "albon" [mkRace "5" None] round5Results ∅ ∅ ∅ ∅
    (λ _ _ _, Num 1)
  = calculateTotalPoints "albon" [mkRace "5" None] round5Results ∅
      (userPredictions managerWithReserve) ∅ ∅ (λ _ _ _, Num 7).
Proof.
  apply total_of_actual_results.
  intros r ->%list_elem_of_singleton. split; [by eexists | done].
Defined.

(** X8. For a driver without any actual result in the schedule, the
    projected total lies between 0 and 25 points per race plus 8 per sprint
    weekend. *)
Theorem projected_total_bounds (driverId : string) (races : list Race)
    (rr sr : gmap string (list ResultEntry)) (up sp : gmap string obj)
    (collapsed : gset string) (predicted : string → string → bool → jsnum) :
  noResults driverId races rr sr →
  0 ≤ calculateTotalPoints driverId races rr sr up sp collapsed predicted
    ≤ 25 * Z.of_nat (length races) + 8 * sprintCount races.
Proof.
  unfold sprintCount. intros Hno.
  induction races as [|r races IH]; [done |].
  rewrite total_cons, addRacePoints_columns.
  destruct (Hno r) as [Hrace Hsprint]; [left |].
  unfold raceColumnPoints, sprintColumnPoints. rewrite Hrace, Hsprint.
  assert (0 ≤ match predicted driverId (round r) false with
              | Num p => if bool_decide (0 < p) then getRacePoints p else 0
              | NaN => 0
              end ≤ 25) as Hr.
  { destruct (predicted _ _ false) as [|p]; [lia |].
    pose proof (race_points_bounds p). case_bool_decide; lia. }
  assert (0 ≤ match predicted driverId (round r) true with
              | Num p => if bool_decide (0 < p) then getSprintPoints p else 0
              | NaN => 0
              end ≤ 8) as Hs.
  { destruct (predicted _ _ true) as [|p]; [lia |].
    pose proof (sprint_points_bounds p). case_bool_decide; lia. }
  assert (0 ≤ calculateTotalPoints driverId races rr sr up sp collapsed
                predicted
            ≤ 25 * Z.of_nat (length races)
              + 8 * Z.of_nat (length (filter (λ r, hasSprint r = true) races)))
    as IH'.
  { apply IH. intros r' Hr'. apply Hno. by right. }
  destruct (hasSprint r) eqn:Hhs.
  - rewrite filter_cons_True by done. simpl length.
    destruct (negb (bool_decide (sprintKey (round r) ∈ collapsed))),
      (negb (bool_decide (raceKey (round r) ∈ collapsed))); simpl; lia.
  - rewrite filter_cons_False by congruence. simpl length.
    destruct (negb (bool_decide (raceKey (round r) ∈ collapsed))); simpl; lia.
Qed.

Lemma projected_total_bounds_witness :
  0 ≤ calculateTotalPoints "albon" mixedSchedule ∅ ∅ ∅ ∅ ∅ (λ _ _ _, Num 1)
    ≤ 25 * Z.of_nat (length mixedSchedule) + 8 * sprintCount mixedSchedule.
Proof.
  apply projected_total_bounds. intros r _. split; reflexivity.
Defined.

(** ** PredictionManager: writes, reads, export and import *)

Lemma setSlot_lookup (m : gmap string obj) (d rnd d' rnd' : string)
    (v : jsval) :
  setSlot m d rnd v !! rnd' ≫= (λ o, obj_lookup o d')
  = if decide (rnd' = rnd ∧ d' = d) then Some v
    else m !! rnd' ≫= (λ o, obj_lookup o d').
Proof.
  unfold setSlot. rewrite lookup_insert.
  destruct (decide (rnd = rnd')) as [<-|Hr]; simpl.
  - rewrite obj_lookup_set.
    destruct (decide (d = d')) as [<-|Hd].
    + by rewrite decide_True.
    + rewrite decide_False by (intros [_ ?]; congruence).
      by destruct (m !! rnd).
  - by rewrite decide_False by (intros [? _]; congruence).
Qed.

(** The resolver reads the store through [storedEntry] only. *)
Lemma getPredictedPosition_stored (pm pm' : PredictionManager)
    (d rnd : string) (isSprint : bool)
    (qual squal : gmap string (list QualifyingEntry)) (drivers : list Driver) :
  storedEntry pm isSprint rnd d = storedEntry pm' isSprint rnd d →
  getPredictedPosition pm d rnd isSprint qual squal drivers
  = getPredictedPosition pm' d rnd isSprint qual squal drivers.
Proof.
  unfold storedEntry, getPredictedPosition. intros Heq.
  assert (∀ m : gmap string obj,
            match m !! rnd with
            | Some o => obj_lookup o d
            | None => None
            end = m !! rnd ≫= (λ o, obj_lookup o d)) as Hbind.
  { intros m. by destruct (m !! rnd). }
  by rewrite !Hbind, Heq.
Qed.

Lemma getPredictedPosition_entry (pm : PredictionManager)
    (d rnd : string) (isSprint : bool) (v : jsval)
    (qual squal : gmap string (list QualifyingEntry)) (drivers : list Driver) :
  storedEntry pm isSprint rnd d = Some v →
  getPredictedPosition pm d rnd isSprint qual squal drivers = entryPosition v.
Proof.
  unfold storedEntry, getPredictedPosition, entryPosition. intros Heq.
  destruct (_ !! rnd) as [o|]; simpl in Heq; [| done]. by rewrite Heq.
Qed.

(** X9. Reading back what the manager was told: after
    [updatePrediction(d, r, v)] the race position of [d] in round [r]
    resolves to [v] (0 for null), whatever qualifying and standings say;
    every other race position and every sprint position resolves as before.
    [updateSprintPrediction] does the same on the sprint side. *)
Theorem manager_write_then_read (pm : PredictionManager)
    (d rnd d' rnd' : string) (v : jsval) (isSprint : bool)
    (qual squal : gmap string (list QualifyingEntry)) (drivers : list Driver) :
  getPredictedPosition (PM.updatePrediction pm d rnd v)
    d' rnd' isSprint qual squal drivers
  = (if decide (isSprint = false ∧ rnd' = rnd ∧ d' = d) then entryPosition v
     else getPredictedPosition pm d' rnd' isSprint qual squal drivers)
  ∧ getPredictedPosition (PM.updateSprintPrediction pm d rnd v)
      d' rnd' isSprint qual squal drivers
    = (if decide (isSprint = true ∧ rnd' = rnd ∧ d' = d) then entryPosition v
       else getPredictedPosition pm d' rnd' isSprint qual squal drivers).
Proof.
  split.
  - destruct isSprint.
    + rewrite decide_False by (by intros [? _]).
      by apply getPredictedPosition_stored.
    + destruct (decide (rnd' = rnd ∧ d' = d)) as [[-> ->]|Hne].
      * rewrite decide_True by done.
        apply getPredictedPosition_entry. unfold storedEntry. simpl.
        rewrite setSlot_lookup. by rewrite decide_True.
      * rewrite decide_False by (intros (_ & ? & ?); by apply Hne).
        apply getPredictedPosition_stored. unfold storedEntry. simpl.
        rewrite setSlot_lookup. by rewrite decide_False.
  - destruct isSprint.
    + destruct (decide (rnd' = rnd ∧ d' = d)) as [[-> ->]|Hne].
      * rewrite decide_True by done.
        apply getPredictedPosition_entry. unfold storedEntry. simpl.
        rewrite setSlot_lookup. by rewrite decide_True.
      * rewrite decide_False by (intros (_ & ? & ?); by apply Hne).
        apply getPredictedPosition_stored. unfold storedEntry. simpl.
        rewrite setSlot_lookup. by rewrite decide_False.
    + rewrite decide_False by (by intros [? _]).
      by apply getPredictedPosition_stored.
Qed.

(** X10. Export followed by import, with nothing written in between, gives
    back the exported manager whatever the importing manager held, and an
    import only replaces the maps the data carries. *)
Theorem import_export_round_trip (pm pm' : PredictionManager)
    (data : PredictionData) :
  importPredictions pm' (exportPredictions pm) = pm
  ∧ (data_userPredictions data = None →
     userPredictions (importPredictions pm data) = userPredictions pm)
  ∧ (data_sprintPredictions data = None →
     sprintPredictions (importPredictions pm data) = sprintPredictions pm)
  ∧ (∀ m, data_userPredictions data = Some m →
          userPredictions (importPredictions pm data) = m)
  ∧ (∀ m, data_sprintPredictions data = Some m →
          sprintPredictions (importPredictions pm data) = m).
Proof.
  split_and!.
  - by destruct pm.
  - intros Hnone. simpl. by rewrite Hnone.
  - intros Hnone. simpl. by rewrite Hnone.
  - intros m Hsome. simpl. by rewrite Hsome.
  - intros m Hsome. simpl. by rewrite Hsome.
Qed.

(** ** Application writes *)

(** A write rebuilds the application around the new manager only. *)
Lemma writePrediction_data (isSprint : bool) (this : F1StandingsApp)
    (A rnd : string) (position : jsval) :
  let after := writePrediction isSprint this A rnd position in
  driversData after = driversData this
  ∧ racesData after = racesData this
  ∧ raceResults after = raceResults this
  ∧ sprintResults after = sprintResults this
  ∧ qualifyingResults after = qualifyingResults this
  ∧ sprintQualifyingResults after = sprintQualifyingResults this.
Proof. by destruct isSprint. Qed.

Lemma predictedPositionOf_stored (this this' : F1StandingsApp)
    (d rnd : string) (isSprint : bool) :
  qualifyingResults this' = qualifyingResults this →
  sprintQualifyingResults this' = sprintQualifyingResults this →
  driversData this' = driversData this →
  predictionMap isSprint (predictionManager this') !! rnd
    ≫= (λ o, obj_lookup o d)
  = predictionMap isSprint (predictionManager this) !! rnd
    ≫= (λ o, obj_lookup o d) →
  predictedPositionOf this' d rnd isSprint
  = predictedPositionOf this d rnd isSprint.
Proof.
  unfold predictedPositionOf. intros -> -> -> Heq.
  by apply getPredictedPosition_stored.
Qed.

Lemma swapWrite_lookup_writer (o : obj) (A : string) (position : jsval) :
  obj_lookup (swapWrite o A position) A = Some (toPos position).
Proof.
  unfold swapWrite. rewrite obj_lookup_set. by rewrite decide_True.
Qed.

Lemma entryPosition_toPos (position : jsval) :
  entryPosition (toPos position) = parseInt position.
Proof.
  unfold entryPosition, toPos.
  destruct position as [| |[|z]|z]; simpl; try done.
  - destruct (decide (z = 0)) as [->|Hz]; [done |].
    by rewrite bool_decide_eq_false_2 by done.
  - destruct (decide (z = 0)) as [->|Hz]; [done |].
    by rewrite bool_decide_eq_false_2 by done.
Qed.

(** X11. Reading back what the application wrote: after a race (sprint)
    write of [position] for a driver, that driver's predicted race (sprint)
    position in that round is the number [position] spells (0 for "0", the
    dropdown's "-"), whether or not the write swapped anyone; and the
    predicted positions of the other event-kind are all as before. *)
Theorem app_write_then_read (isSprint : bool) (this : F1StandingsApp)
    (A rnd d rnd' : string) (position : jsval) :
  let after := writePrediction isSprint this A rnd position in
  predictedPositionOf after A rnd isSprint = parseInt position
  ∧ predictedPositionOf after d rnd' (negb isSprint)
    = predictedPositionOf this d rnd' (negb isSprint).
Proof.
  intros after.
  pose proof (writePrediction_effect isSprint this A rnd position) as Heff.
  pose proof (writePrediction_data isSprint this A rnd position) as Hdata.
  cbv zeta in Heff, Hdata. fold after in Heff, Hdata.
  destruct Heff as (Hmap & Hother & _).
  destruct Hdata as (Hd & _ & _ & _ & Hq & Hsq).
  split.
  - unfold predictedPositionOf. rewrite <- entryPosition_toPos.
    apply getPredictedPosition_entry.
    change (storedEntry (predictionManager after) isSprint rnd A)
      with (predictionMap isSprint (predictionManager after) !! rnd
              ≫= (λ o, obj_lookup o A)).
    rewrite Hmap, lookup_insert_eq. simpl. apply swapWrite_lookup_writer.
  - apply predictedPositionOf_stored; [done | done | done |].
    by rewrite Hother.
Qed.

(** X12. A write that carries no concrete position above 0 ("0", 0, null,
    a negative number) never swaps: it stores the converted value in the
    writer's slot and leaves every other entry of every round alone. *)
Theorem write_without_position_never_swaps (isSprint : bool)
    (this : F1StandingsApp) (A rnd : string) (position : jsval) :
  (∀ p, parseInt position = Num p → p ≤ 0) →
  predictionMap isSprint
    (predictionManager (writePrediction isSprint this A rnd position))
  = setSlot (predictionMap isSprint (predictionManager this)) A rnd
      (toPos position).
Proof.
  intros Hnone.
  pose proof (writePrediction_effect isSprint this A rnd position) as Heff.
  cbv zeta in Heff. destruct Heff as (-> & _ & _).
  unfold setSlot. f_equal.
  destruct (swapWrite_cases (default [] (predictionMap isSprint
              (predictionManager this) !! rnd)) A position)
    as [(p & B & Hp & Hparse & _)|[-> _]]; [| done].
  specialize (Hnone p Hparse). lia.
Qed.

Lemma write_without_position_never_swaps_witness :
  predictionMap false
    (predictionManager (writePrediction false appWithPicks "hamilton" "7"
                          (JDecimal 0)))
  = {["7" := [("hamilton", JNull); ("max_verstappen", JNumber (Num 2))]]}.
Proof.
  rewrite (write_without_position_never_swaps false appWithPicks
             "hamilton" "7" (JDecimal 0)).
  - by vm_compute.
  - intros p [= <-]. lia.
Defined.

Lemma obj_lookup_is_Some (o : obj) (k : string) :
  is_Some (obj_lookup o k) ↔ k ∈ o.*1.
Proof.
  destruct (decide (k ∈ o.*1)) as [Hin|Hout].
  - split; [done | intros _].
    destruct (obj_lookup o k) eqn:Hl; [done |].
    by apply obj_lookup_None in Hl.
  - apply obj_lookup_None in Hout as Hl. rewrite Hl.
    split; [by intros [? ?] | done].
Qed.

Lemma obj_set_keys_present (o : obj) (k : string) (v : jsval) :
  is_Some (obj_lookup o k) → (obj_set o k v).*1 = o.*1.
Proof.
  intros Hin%obj_lookup_is_Some. rewrite obj_set_keys. by rewrite decide_True.
Qed.

(** Two objects with the same property names in the same order and the same
    values are the same object. *)
Lemma obj_ext (o o' : obj) :
  obj_wf o → o.*1 = o'.*1 →
  (∀ k, obj_lookup o k = obj_lookup o' k) → o = o'.
Proof.
  unfold obj_wf. revert o'.
  induction o as [|[k v] o IH]; intros [|[k' v'] o'] Hwf Hkeys Hlook;
    try done.
  rewrite !fmap_cons in Hkeys. cbn [fst] in Hkeys. injection Hkeys as <- Hkeys.
  apply NoDup_cons in Hwf as [Hk Hwf].
  pose proof (Hlook k) as Hv. simpl in Hv.
  rewrite !decide_True in Hv by done. injection Hv as <-.
  f_equal. apply IH; [done | done |].
  intros k0. destruct (decide (k = k0)) as [<-|Hne].
  - rewrite (proj2 (obj_lookup_None o k)) by done.
    symmetry. apply obj_lookup_None. by rewrite <- Hkeys.
  - specialize (Hlook k0). simpl in Hlook.
    by rewrite !decide_False in Hlook by done.
Qed.

Lemma swapWrite_swap (o : obj) (A B : string) (position : jsval) (p : Z) :
  obj_wf o → one_to_one o → B ≠ A → 0 < p →
  parseInt position = Num p → holds o B p →
  swapWrite o A position
  = obj_set (obj_set o B (obj_get o A)) A (JNumber (Num p)).
Proof.
  intros Hwf Hinv HBA Hp Hparse HB. unfold swapWrite.
  rewrite (toPos_positive position p) by done.
  rewrite isPositive_Num by done.
  by rewrite (sole_holder_found_first o A B p).
Qed.

Lemma swapWrite_undo (o : obj) (A B : string) (pos1 pos2 : jsval) (p q : Z) :
  obj_wf o → one_to_one o → B ≠ A → 0 < p → 0 < q →
  obj_lookup o A = Some (JNumber (Num q)) →
  obj_lookup o B = Some (JNumber (Num p)) →
  parseInt pos1 = Num p → parseInt pos2 = Num q →
  swapWrite (swapWrite o A pos1) A pos2 = o.
Proof.
  intros Hwf Hinv HBA Hp Hq HA HB Hpos1 Hpos2.
  pose proof (swapWrite_wf o A pos1 Hwf) as Hwf1.
  pose proof (swapWrite_one_to_one o A pos1 Hwf Hinv) as Hinv1.
  assert (swapWrite o A pos1
          = obj_set (obj_set o B (JNumber (Num q))) A (JNumber (Num p)))
    as Ho1.
  { rewrite (swapWrite_swap o A B pos1 p); try done.
    - unfold obj_get. by rewrite HA.
    - by exists (JNumber (Num p)). }
  set (o1 := swapWrite o A pos1) in *.
  assert (obj_lookup o1 A = Some (JNumber (Num p))) as HA1.
  { rewrite Ho1, obj_lookup_set. by rewrite decide_True. }
  assert (obj_lookup o1 B = Some (JNumber (Num q))) as HB1.
  { rewrite Ho1, !obj_lookup_set.
    rewrite decide_False by congruence. by rewrite decide_True. }
  rewrite (swapWrite_swap o1 A B pos2 q); try done;
    [| by exists (JNumber (Num q))].
  unfold obj_get at 1. rewrite HA1. simpl.
  symmetry. apply obj_ext; [done | |].
  - assert (o1.*1 = o.*1) as Hk1.
    { rewrite Ho1, obj_set_keys_present.
      - apply obj_set_keys_present. by rewrite HB.
      - rewrite obj_lookup_set, decide_False by done. by rewrite HA. }
    rewrite <- Hk1. symmetry. rewrite obj_set_keys_present.
    + apply obj_set_keys_present. by rewrite HB1.
    + rewrite obj_lookup_set, decide_False by done. by rewrite HA1.
  - intros k. rewrite !obj_lookup_set.
    destruct (decide (A = k)) as [<-|HAk]; [done |].
    destruct (decide (B = k)) as [<-|HBk]; [done |].
    rewrite Ho1, !obj_lookup_set. by rewrite !decide_False by done.
Qed.

(** X13. A swap can be undone: with [A] at [q] and [B] at [p] in a
    well-formed one-to-one prediction object, writing [p] for [A] (which
    moves [B] to [q]) and then [q] for [A] again (which moves [B] back)
    leaves the prediction map exactly as it was, for race and sprint
    writes alike. *)
Theorem swap_then_swap_back (isSprint : bool) (this : F1StandingsApp)
    (A B rnd : string) (pos1 pos2 : jsval) (p q : Z) (o : obj) :
  predictionMap isSprint (predictionManager this) !! rnd = Some o →
  obj_wf o → one_to_one o → B ≠ A → 0 < p → 0 < q →
  obj_lookup o A = Some (JNumber (Num q)) →
  obj_lookup o B = Some (JNumber (Num p)) →
  parseInt pos1 = Num p → parseInt pos2 = Num q →
  predictionMap isSprint
    (predictionManager
       (writePrediction isSprint
          (writePrediction isSprint this A rnd pos1) A rnd pos2))
  = predictionMap isSprint (predictionManager this).
Proof.
  intros Hm Hwf Hinv HBA Hp Hq HA HB Hpos1 Hpos2.
  pose proof (writePrediction_effect isSprint
                (writePrediction isSprint this A rnd pos1) A rnd pos2) as H2.
  pose proof (writePrediction_effect isSprint this A rnd pos1) as H1.
  cbv zeta in H1, H2. destruct H1 as (H1 & _ & _). destruct H2 as (-> & _ & _).
  rewrite H1, lookup_insert_eq, insert_insert_eq, Hm. simpl.
  rewrite (swapWrite_undo o A B pos1 pos2 p q) by done.
  by apply insert_id.
Qed.

Lemma swap_then_swap_back_witness :
  predictionMap false
    (predictionManager
       (writePrediction false
          (writePrediction false appWithPicks "hamilton" "7" (JDecimal 2))
          "hamilton" "7" (JDecimal 1)))
  = predictionMap false (predictionManager appWithPicks).
Proof.
  destruct (hamiltonFirst_ok "7" hamiltonFirst) as [Hwf Hinv];
    [reflexivity |].
  apply (swap_then_swap_back false appWithPicks "hamilton" "max_verstappen"
           "7" (JDecimal 2) (JDecimal 1) 2 1 hamiltonFirst);
    first [reflexivity | assumption | discriminate | lia].
Defined.

(** ** Column toggles *)

Lemma raceKey_inj (a b : string) : raceKey a = raceKey b → a = b.
Proof. unfold raceKey. intros H. cbv [String.append] in H. congruence. Qed.

Lemma sprintKey_inj (a b : string) : sprintKey a = sprintKey b → a = b.
Proof. unfold sprintKey. intros H. cbv [String.append] in H. congruence. Qed.

Lemma raceKey_not_sprintKey (a b : string) : raceKey a ≠ sprintKey b.
Proof. unfold raceKey, sprintKey. intros H. cbv [String.append] in H. congruence. Qed.

(** The ids of the synthetic columns are no round's column id. *)
Lemma synthetic_not_round_key (key rnd : string) :
  key ∈ ["predicted-points"; "predicted-standing"; "gap-leader"; "gap-ahead"] →
  key ≠ raceKey rnd ∧ key ≠ sprintKey rnd.
Proof.
  unfold raceKey, sprintKey. intros Hin.
  repeat (apply elem_of_cons in Hin as [->|Hin]);
    [| | | | by apply elem_of_nil in Hin];
    split; intros H; cbv [String.append] in H; congruence.
Qed.

(** X14. [toggleColumn] flips the membership of its column id and of no
    other, and toggling the same column twice gives back the collapsed set
    it started from. *)
Theorem toggleColumn_flips (this : TableRenderer) (columnId key : string) :
  (columnId ∈ collapsedColumns (TR.toggleColumn this columnId)
   ↔ columnId ∉ collapsedColumns this)
  ∧ (key ≠ columnId →
     (key ∈ collapsedColumns (TR.toggleColumn this columnId)
      ↔ key ∈ collapsedColumns this))
  ∧ collapsedColumns
      (TR.toggleColumn (TR.toggleColumn this columnId) columnId)
    = collapsedColumns this.
Proof.
  unfold TR.toggleColumn.
  destruct (decide (columnId ∈ collapsedColumns this)) as [Hin|Hout].
  - rewrite (bool_decide_eq_true_2 _ Hin). simpl.
    rewrite bool_decide_eq_false_2 by set_solver. simpl.
    split_and!; [set_solver | set_solver |].
    apply set_eq. intros x. destruct (decide (x = columnId)); set_solver.
  - rewrite (bool_decide_eq_false_2 _ Hout). simpl.
    rewrite bool_decide_eq_true_2 by set_solver. simpl.
    split_and!; set_solver.
Qed.

Lemma anyPastVisible_iff (collapsed : gset string)
    (rr : gmap string (list ResultEntry)) (races : list Race) :
  TR.anyPastVisible collapsed rr races = true
  ↔ pastRaceVisible collapsed races rr.
Proof.
  unfold pastRaceVisible. induction races as [|r races IH]; simpl.
  - split; [done | by intros (? & ?%elem_of_nil & _)].
  - destruct (hasResults rr (round r)) eqn:Hres; simpl.
    + destruct (decide (raceKey (round r) ∈ collapsed)) as [Hin|Hin].
      * rewrite bool_decide_eq_true_2 by done. simpl. rewrite IH. split.
        -- intros (r' & ? & ? & ?).
           exists r'. split_and!; [by right | done | done].
        -- intros (r' & [->|?]%elem_of_cons & ? & ?); [done | by eauto].
      * rewrite bool_decide_eq_false_2 by done. simpl.
        split; [intros _ | done]. exists r. split_and!; [left | done | done].
    + rewrite IH. split.
      * intros (r' & ? & ? & ?). exists r'. split_and!; [by right | done | done].
      * intros (r' & [->|?]%elem_of_cons & ? & ?); [congruence | by eauto].
Qed.

Lemma togglePast_loop_eq (collapse : bool)
    (rr sr : gmap string (list ResultEntry)) (races : list Race)
    (collapsed : gset string) :
  fold_left (TR.togglePastStep collapse rr sr) races collapsed
  = if collapse then collapsed ∪ pastColumns races rr sr
    else collapsed ∖ pastColumns races rr sr.
Proof.
  unfold pastColumns. revert collapsed.
  induction races as [|r races IH]; intros collapsed; simpl.
  - destruct collapse; set_solver.
  - rewrite IH.
    assert (TR.togglePastStep collapse rr sr collapsed r
            = if collapse then collapsed ∪ pastColumnsOf rr sr r
              else collapsed ∖ pastColumnsOf rr sr r) as ->.
    { unfold TR.togglePastStep, TR.setCollapsed, pastColumnsOf.
      destruct collapse, (hasResults rr (round r)),
        (hasSprint r && hasResults sr (round r)); simpl; set_solver. }
    destruct collapse; set_solver.
Qed.

Lemma elem_of_pastColumns (key : string) (races : list Race)
    (rr sr : gmap string (list ResultEntry)) :
  key ∈ pastColumns races rr sr
  ↔ (∃ r, r ∈ races ∧ hasResults rr (round r) = true
          ∧ key = raceKey (round r))
    ∨ (∃ r, r ∈ races ∧ hasSprint r = true ∧ hasResults sr (round r) = true
            ∧ key = sprintKey (round r)).
Proof.
  unfold pastColumns. rewrite elem_of_union_list. split.
  - intros (X & (r & -> & Hr)%list_elem_of_fmap & Hkey).
    unfold pastColumnsOf in Hkey.
    apply elem_of_union in Hkey as [Hkey|Hkey].
    + destruct (hasResults rr (round r)) eqn:?; [| set_solver].
      left. exists r. split_and!; [done | done | set_solver].
    + destruct (hasSprint r) eqn:?, (hasResults sr (round r)) eqn:?;
        simpl in Hkey; [| set_solver..].
      right. exists r. split_and!; [done | done | done | set_solver].
  - intros [(r & Hr & Hres & ->)|(r & Hr & Hs & Hres & ->)].
    + exists (pastColumnsOf rr sr r).
      split; [apply list_elem_of_fmap; by eauto |].
      unfold pastColumnsOf. rewrite Hres. set_solver.
    + exists (pastColumnsOf rr sr r).
      split; [apply list_elem_of_fmap; by eauto |].
      unfold pastColumnsOf. rewrite Hs, Hres. simpl. set_solver.
Qed.

(** X15. [toggleAllPast] collapses the race column of every resolved race
    and the sprint column of every resolved sprint exactly when some
    resolved race has its race column visible, and expands them all
    otherwise; it returns true iff it collapsed; and it leaves the four
    synthetic columns (projected points and standing, the two gaps) as they
    were. *)
Theorem toggleAllPast_by_race_columns (this : TableRenderer)
    (races : list Race) (rr sr : gmap string (list ResultEntry)) :
  let after := TR.toggleAllPast this races rr sr in
  (after.2 = true ↔ pastRaceVisible (collapsedColumns this) races rr)
  ∧ collapsedColumns after.1
    = (if after.2
       then collapsedColumns this ∪ pastColumns races rr sr
       else collapsedColumns this ∖ pastColumns races rr sr)
  ∧ ∀ key,
      key ∈ ["predicted-points"; "predicted-standing";
             "gap-leader"; "gap-ahead"] →
      (key ∈ collapsedColumns after.1 ↔ key ∈ collapsedColumns this).
Proof.
  intros after. unfold after, TR.toggleAllPast. simpl.
  rewrite togglePast_loop_eq. split_and!.
  - apply anyPastVisible_iff.
  - done.
  - intros key Hsyn.
    assert (key ∉ pastColumns races rr sr) as Hout.
    { intros [(r & _ & _ & Hk)|(r & _ & _ & _ & Hk)]%elem_of_pastColumns;
        by destruct (synthetic_not_round_key key (round r) Hsyn). }
    destruct (TR.anyPastVisible _ _ _); set_solver.
Qed.

(** X16. [toggleAllFuture] leaves alone every column it is not meant for:
    the race column of any resolved race, the sprint column of any resolved
    sprint and the two gap columns are collapsed after it iff they were
    before. *)
Theorem toggleAllFuture_frame (this : TableRenderer)
    (races : list Race) (rr sr : gmap string (list ResultEntry)) :
  let after := (TR.toggleAllFuture this races rr sr).1 in
  (∀ rnd, hasResults rr rnd = true →
          (raceKey rnd ∈ collapsedColumns after
           ↔ raceKey rnd ∈ collapsedColumns this))
  ∧ (∀ rnd, hasResults sr rnd = true →
            (sprintKey rnd ∈ collapsedColumns after
             ↔ sprintKey rnd ∈ collapsedColumns this))
  ∧ (∀ key, key ∈ ["gap-leader"; "gap-ahead"] →
            (key ∈ collapsedColumns after ↔ key ∈ collapsedColumns this)).
Proof.
  intros after. unfold after. rewrite toggleAllFuture_eq. cbn zeta. simpl.
  assert (∀ key, key ∉ futureColumns races rr sr →
                 (key ∈ (if TR.anyFutureVisible (collapsedColumns this) rr races
                         then collapsedColumns this ∪ futureColumns races rr sr
                         else collapsedColumns this ∖ futureColumns races rr sr)
                  ↔ key ∈ collapsedColumns this)) as Hframe.
  { intros key Hout. destruct (TR.anyFutureVisible _ _ _); set_solver. }
  split_and!.
  - intros rnd Hres. apply Hframe.
    intros [(r & _ & Hr & Hk)|[(r & _ & _ & _ & Hk)|[Hk|Hk]]]%elem_of_futureColumns.
    + apply raceKey_inj in Hk as ->. congruence.
    + by apply raceKey_not_sprintKey in Hk.
    + symmetry in Hk. revert Hk.
      apply (synthetic_not_round_key "predicted-points" rnd). set_solver.
    + symmetry in Hk. revert Hk.
      apply (synthetic_not_round_key "predicted-standing" rnd). set_solver.
  - intros rnd Hres. apply Hframe.
    intros [(r & _ & _ & Hk)|[(r & _ & _ & Hr & Hk)|[Hk|Hk]]]%elem_of_futureColumns.
    + symmetry in Hk. by apply raceKey_not_sprintKey in Hk.
    + apply sprintKey_inj in Hk as ->. congruence.
    + symmetry in Hk. revert Hk.
      apply (synthetic_not_round_key "predicted-points" rnd). set_solver.
    + symmetry in Hk. revert Hk.
      apply (synthetic_not_round_key "predicted-standing" rnd). set_solver.
  - intros key Hgap. apply Hframe.
    assert (key ∈ ["predicted-points"; "predicted-standing";
                   "gap-leader"; "gap-ahead"]) as Hsyn by set_solver.
    intros [(r & _ & _ & Hk)|[(r & _ & _ & _ & Hk)|[Hk|Hk]]]%elem_of_futureColumns.
    + by destruct (synthetic_not_round_key key (round r) Hsyn).
    + by destruct (synthetic_not_round_key key (round r) Hsyn).
    + subst key. set_solver.
    + subst key. set_solver.
Qed.

Lemma toggleAllPast_eq (this : TableRenderer) (races : list Race)
    (rr sr : gmap string (list ResultEntry)) :
  TR.toggleAllPast this races rr sr
  = let collapse := TR.anyPastVisible (collapsedColumns this) rr races in
    ({| collapsedColumns :=
          if collapse
          then collapsedColumns this ∪ pastColumns races rr sr
          else collapsedColumns this ∖ pastColumns races rr sr |},
     collapse).
Proof. unfold TR.toggleAllPast. by rewrite togglePast_loop_eq. Qed.

(** No column is both a past and a future column. *)
Lemma past_future_disjoint (races : list Race)
    (rr sr : gmap string (list ResultEntry)) (key : string) :
  key ∈ pastColumns races rr sr → key ∈ futureColumns races rr sr → False.
Proof.
  intros [(r & _ & Hr & ->)|(r & _ & _ & Hr & ->)]%elem_of_pastColumns
    [(r' & _ & Hr' & Hk)|[(r' & _ & _ & Hr' & Hk)|[Hk|Hk]]]%elem_of_futureColumns.
  - apply raceKey_inj in Hk. congruence.
  - by apply raceKey_not_sprintKey in Hk.
  - symmetry in Hk. revert Hk.
    apply (synthetic_not_round_key "predicted-points" (round r)). set_solver.
  - symmetry in Hk. revert Hk.
    apply (synthetic_not_round_key "predicted-standing" (round r)). set_solver.
  - symmetry in Hk. by apply raceKey_not_sprintKey in Hk.
  - apply sprintKey_inj in Hk. congruence.
  - symmetry in Hk. revert Hk.
    apply (synthetic_not_round_key "predicted-points" (round r)). set_solver.
  - symmetry in Hk. revert Hk.
    apply (synthetic_not_round_key "predicted-standing" (round r)). set_solver.
Qed.

Lemma bool_eq_of_iff (b1 b2 : bool) : (b1 = true ↔ b2 = true) → b1 = b2.
Proof. destruct b1, b2; intros [H1 H2]; auto; symmetry; auto. Qed.

(** The future test only looks at future race columns. *)
Lemma anyFutureVisible_ext (C C' : gset string) (races : list Race)
    (rr sr : gmap string (list ResultEntry)) :
  (∀ key, key ∈ futureColumns races rr sr → (key ∈ C ↔ key ∈ C')) →
  TR.anyFutureVisible C rr races = TR.anyFutureVisible C' rr races.
Proof.
  intros Hsame. apply bool_eq_of_iff. rewrite !anyFutureVisible_iff.
  split; intros (r & Hr & Hres & Hout); exists r; split_and!; try done;
    intros Hin; apply Hout, (Hsame (raceKey (round r)));
    try done; by apply future_race_key_touched.
Qed.

Lemma anyPastVisible_ext (C C' : gset string) (races : list Race)
    (rr sr : gmap string (list ResultEntry)) :
  (∀ key, key ∈ pastColumns races rr sr → (key ∈ C ↔ key ∈ C')) →
  TR.anyPastVisible C rr races = TR.anyPastVisible C' rr races.
Proof.
  intros Hsame. apply bool_eq_of_iff. rewrite !anyPastVisible_iff.
  split; intros (r & Hr & Hres & Hout); exists r; split_and!; try done;
    intros Hin; apply Hout, (Hsame (raceKey (round r)));
    try done; apply elem_of_pastColumns; left; by exists r.
Qed.

(** X17. The past toggle and the future toggle do not interfere: pressed in
    either order they leave the same collapsed set, and each one's answer
    (collapsed or expanded) is the one it would have given alone. *)
Theorem past_and_future_toggles_commute (this : TableRenderer)
    (races : list Race) (rr sr : gmap string (list ResultEntry)) :
  let future := TR.toggleAllFuture this races rr sr in
  let past := TR.toggleAllPast this races rr sr in
  let pastAfterFuture := TR.toggleAllPast future.1 races rr sr in
  let futureAfterPast := TR.toggleAllFuture past.1 races rr sr in
  collapsedColumns pastAfterFuture.1 = collapsedColumns futureAfterPast.1
  ∧ pastAfterFuture.2 = past.2
  ∧ futureAfterPast.2 = future.2.
Proof.
  cbv zeta. rewrite !toggleAllFuture_eq, !toggleAllPast_eq. cbn zeta. simpl.
  set (C := collapsedColumns this).
  set (F := futureColumns races rr sr). set (P := pastColumns races rr sr).
  pose proof (past_future_disjoint races rr sr) as Hdisj. fold F P in Hdisj.
  assert (TR.anyPastVisible
            (if TR.anyFutureVisible C rr races then C ∪ F else C ∖ F) rr races
          = TR.anyPastVisible C rr races) as HP.
  { apply (anyPastVisible_ext _ _ _ _ sr). fold P. intros key HkP.
    destruct (TR.anyFutureVisible C rr races); set_solver. }
  assert (TR.anyFutureVisible
            (if TR.anyPastVisible C rr races then C ∪ P else C ∖ P) rr races
          = TR.anyFutureVisible C rr races) as HF.
  { apply (anyFutureVisible_ext _ _ _ _ sr). fold F. intros key HkF.
    destruct (TR.anyPastVisible C rr races); set_solver. }
  rewrite HP, HF. split_and!; [| done | done].
  destruct (TR.anyFutureVisible C rr races), (TR.anyPastVisible C rr races);
    set_solver.
Qed.

(** ** Column order, continued *)

Lemma stablePartition_visible (columns : list Column) :
  Forall (λ c, isCollapsed c = false) columns →
  stablePartition columns = columns.
Proof.
  unfold stablePartition. induction 1 as [|c columns Hc _ IH]; [done |].
  rewrite (filter_cons_True (λ c, isCollapsed c = false)) by done.
  rewrite (filter_cons_False (λ c, isCollapsed c = true)) by congruence.
  simpl. by rewrite IH.
Qed.

Lemma buildColumns_flags (collapsed : gset string) (races : list Race)
    (rr sr : gmap string (list ResultEntry)) :
  Forall (λ c, isCollapsed c
               = bool_decide
                   ((if decide (type c = sprint) then sprintKey (col_round c)
                     else raceKey (col_round c)) ∈ collapsed))
    (buildColumns collapsed races rr sr).
Proof.
  induction races as [|r races IH]; [constructor |].
  rewrite buildColumns_cons. apply Forall_app. split; [| done].
  unfold columnsOfRace. destruct (hasSprint r); repeat constructor.
Qed.

Lemma buildColumns_length (collapsed : gset string) (races : list Race)
    (rr sr : gmap string (list ResultEntry)) :
  Z.of_nat (length (buildColumns collapsed races rr sr))
  = Z.of_nat (length races) + sprintCount races.
Proof.
  unfold sprintCount. induction races as [|r races IH]; [done |].
  rewrite buildColumns_cons, length_app. unfold columnsOfRace.
  destruct (hasSprint r) eqn:Hs.
  - rewrite filter_cons_True by done. simpl length. lia.
  - rewrite filter_cons_False by congruence. simpl length. lia.
Qed.

Lemma stablePartition_perm (columns : list Column) :
  stablePartition columns ≡ₚ columns.
Proof.
  unfold stablePartition. induction columns as [|c columns IH]; [done |].
  destruct (isCollapsed c) eqn:Hc.
  - rewrite (filter_cons_False (λ c, isCollapsed c = false)) by congruence.
    rewrite (filter_cons_True (λ c, isCollapsed c = true)) by done.
    rewrite <- Permutation_middle. by constructor.
  - rewrite (filter_cons_True (λ c, isCollapsed c = false)) by done.
    rewrite (filter_cons_False (λ c, isCollapsed c = true)) by congruence.
    simpl. by constructor.
Qed.

(** X18. After [expandAll] nothing is collapsed and the table shows its
    columns in plain chronological order. *)
Theorem expandAll_restores_chronological_order (this : TableRenderer)
    (races : list Race) (rr sr : gmap string (list ResultEntry)) :
  collapsedColumns (TR.expandAll this) = ∅
  ∧ getOrderedColumns (TR.expandAll this) races rr sr
    = buildColumns ∅ races rr sr
  ∧ Forall (λ c, isCollapsed c = false)
      (getOrderedColumns (TR.expandAll this) races rr sr).
Proof.
  assert (Forall (λ c, isCollapsed c = false) (buildColumns ∅ races rr sr))
    as Hvis.
  { eapply Forall_impl; [apply buildColumns_flags |].
    intros c ->. by apply bool_decide_eq_false_2. }
  unfold getOrderedColumns. simpl.
  rewrite js_sort_compareCollapsed, stablePartition_visible by done.
  done.
Qed.

(** X19. Ordering loses and duplicates nothing: the ordered list is a
    rearrangement of the chronological one, and it has one column per race
    plus one per sprint weekend. *)
Theorem getOrderedColumns_complete (this : TableRenderer)
    (races : list Race) (rr sr : gmap string (list ResultEntry)) :
  getOrderedColumns this races rr sr
    ≡ₚ buildColumns (collapsedColumns this) races rr sr
  ∧ Z.of_nat (length (getOrderedColumns this races rr sr))
    = Z.of_nat (length races) + sprintCount races.
Proof.
  unfold getOrderedColumns. rewrite js_sort_compareCollapsed.
  split; [apply stablePartition_perm |].
  rewrite (Permutation_length (stablePartition_perm _)).
  apply buildColumns_length.
Qed.

(** ** Standings *)

Section SortFacts.
Context {A : Type} (cmp : A → A → Z).

Lemma sort_insert_perm (x : A) (sorted : list A) :
  sort_insert cmp x sorted ≡ₚ x :: sorted.
Proof.
  induction sorted as [|y rest IH]; simpl; [done |].
  case_bool_decide; [| done].
  rewrite IH. apply perm_swap.
Qed.

Lemma js_sort_perm (l : list A) : js_sort cmp l ≡ₚ l.
Proof.
  induction l as [|x l IH]; simpl; [done |].
  by rewrite sort_insert_perm, IH.
Qed.

End SortFacts.

Lemma sort_insert_by_points (x : DriverWithPoints)
    (sorted : list DriverWithPoints) :
  StronglySorted (λ a b, calculatedPoints b ≤ calculatedPoints a) sorted →
  StronglySorted (λ a b, calculatedPoints b ≤ calculatedPoints a)
    (sort_insert comparePoints x sorted).
Proof.
  induction 1 as [|y rest Hsorted IH Hy]; simpl.
  - repeat constructor.
  - unfold comparePoints at 1. case_bool_decide as Hcmp.
    + constructor; [done |].
      rewrite sort_insert_perm. constructor; [lia | done].
    + constructor; [by constructor |].
      constructor; [lia |].
      eapply Forall_impl; [exact Hy |]. simpl. intros z Hz. lia.
Qed.

Lemma sort_insert_filter_points (v : Z) (x : DriverWithPoints)
    (sorted : list DriverWithPoints) :
  filter (λ r, calculatedPoints r = v) (sort_insert comparePoints x sorted)
  = filter (λ r, calculatedPoints r = v) (x :: sorted).
Proof.
  induction sorted as [|y rest IH]; simpl; [done |].
  unfold comparePoints at 1. case_bool_decide as Hcmp; [| done].
  destruct (decide (calculatedPoints y = v)) as [Hy|Hy].
  - rewrite (filter_cons_True _ y) by done. rewrite IH.
    rewrite (filter_cons_False _ x) by lia.
    rewrite (filter_cons_False _ x) by lia.
    by rewrite (filter_cons_True _ y) by done.
  - rewrite (filter_cons_False _ y) by done. rewrite IH.
    destruct (decide (calculatedPoints x = v)) as [Hx|Hx].
    + rewrite !(filter_cons_True _ x) by done.
      by rewrite (filter_cons_False _ y) by done.
    + rewrite !(filter_cons_False _ x) by done.
      by rewrite (filter_cons_False _ y) by done.
Qed.

Lemma js_sort_by_points (rows : list DriverWithPoints) :
  StronglySorted (λ a b, calculatedPoints b ≤ calculatedPoints a)
    (js_sort comparePoints rows)
  ∧ ∀ v, filter (λ r, calculatedPoints r = v) (js_sort comparePoints rows)
         = filter (λ r, calculatedPoints r = v) rows.
Proof.
  induction rows as [|x rows [IHs IHf]]; simpl.
  - split; [constructor | done].
  - split; [by apply sort_insert_by_points |].
    intros v. rewrite sort_insert_filter_points.
    destruct (decide (calculatedPoints x = v)) as [Hx|Hx].
    + rewrite !(filter_cons_True _ x) by done. by rewrite IHf.
    + rewrite !(filter_cons_False _ x) by done. by rewrite IHf.
Qed.

(** X20. The rows of the table are the drivers, each once, in descending
    order of calculated points, and drivers level on points stay in the
    order the standings delivered them. *)
Theorem standings_ranked (driversData : list Driver)
    (calculatePoints : string → Z) :
  let unsorted :=
    map (λ d, {| driver := d;
                 calculatedPoints := calculatePoints (d_driverId d) |})
      driversData in
  let rows := driversWithPoints driversData calculatePoints in
  rows ≡ₚ unsorted
  ∧ length rows = length driversData
  ∧ StronglySorted (λ a b, calculatedPoints b ≤ calculatedPoints a) rows
  ∧ ∀ v, filter (λ r, calculatedPoints r = v) rows
         = filter (λ r, calculatedPoints r = v) unsorted.
Proof.
  intros unsorted rows. unfold rows, driversWithPoints. fold unsorted.
  destruct (js_sort_by_points unsorted) as [Hsorted Hstable].
  split_and!; [apply js_sort_perm | | done | done].
  rewrite (Permutation_length (js_sort_perm comparePoints unsorted)).
  unfold unsorted. apply length_map.
Qed.

(** X21. In the rendered table no gap is negative: every row's gap to the
    leader and gap to the driver ahead is at least 0, the gap to the driver
    ahead is never larger than the gap to the leader, and the first row has
    both gaps 0. *)
Theorem standings_gaps (driversData : list Driver)
    (calculatePoints : string → Z) (i : nat) :
  let rows := driversWithPoints driversData calculatePoints in
  (∀ g, gapToLeader rows i = Some g → 0 ≤ g)
  ∧ (∀ g, gapToAhead rows i = Some g → 0 ≤ g)
  ∧ (∀ g g', gapToAhead rows i = Some g → gapToLeader rows i = Some g' →
             g ≤ g')
  ∧ (∀ g, gapToLeader rows 0 = Some g → g = 0)
  ∧ (∀ g, gapToAhead rows 0 = Some g → g = 0).
Proof.
  intros rows.
  assert (StronglySorted (λ a b, calculatedPoints b ≤ calculatedPoints a) rows)
    as Hsorted by apply js_sort_by_points.
  assert (∀ j k a b, (j ≤ k)%nat → rows !! j = Some a → rows !! k = Some b →
                     calculatedPoints b ≤ calculatedPoints a) as Hle.
  { clear -Hsorted. induction Hsorted as [|x rest Hs IH Hx].
    - intros j k a b _ Hj. by rewrite lookup_nil in Hj.
    - intros [|j] [|k] a b Hjk Hj Hk; simpl in Hj, Hk.
      + injection Hj as <-. injection Hk as <-. lia.
      + injection Hj as <-. rewrite Forall_forall in Hx.
        apply Hx. by eapply list_elem_of_lookup_2.
      + lia.
      + apply (IH j k); [lia | done | done]. }
  unfold gapToLeader, gapToAhead. split_and!.
  - intros g Hg.
    destruct (rows !! 0%nat) as [l|] eqn:Hl; simpl in Hg; [| done].
    destruct (rows !! i) as [r|] eqn:Hr; simpl in Hg; [| done].
    injection Hg as <-.
    pose proof (Hle 0%nat i l r ltac:(lia) Hl Hr). lia.
  - intros g Hg.
    destruct (rows !! i) as [r|] eqn:Hr; simpl in Hg; [| done].
    destruct i as [|j]; [injection Hg as <-; lia |].
    destruct (rows !! j) as [a|] eqn:Ha; simpl in Hg; [| done].
    injection Hg as <-.
    pose proof (Hle j (S j) a r ltac:(lia) Ha Hr). lia.
  - intros g g' Hg Hg'.
    destruct (rows !! 0%nat) as [l|] eqn:Hl; simpl in Hg'; [| done].
    destruct (rows !! i) as [r|] eqn:Hr; simpl in Hg, Hg'; [| done].
    injection Hg' as <-.
    destruct i as [|j]; [injection Hg as <-; rewrite Hl in Hr; injection Hr as ->; lia |].
    destruct (rows !! j) as [a|] eqn:Ha; simpl in Hg; [| done].
    injection Hg as <-.
    pose proof (Hle 0%nat j l a ltac:(lia) Hl Ha). lia.
  - intros g Hg.
    destruct (rows !! 0%nat) as [l|] eqn:Hl; simpl in Hg; [| done].
    injection Hg as <-. lia.
  - intros g Hg.
    destruct (rows !! 0%nat) as [l|] eqn:Hl; simpl in Hg; [| done].
    by injection Hg as <-.
Qed.

(** ** Loading *)

Lemma storeAnswer_lookup {V : Type} (m : gmap string V) (rnd rnd' : string)
    (answer : option V) :
  storeAnswer m rnd answer !! rnd'
  = if decide (rnd = rnd')
    then match answer with Some v => Some v | None => m !! rnd' end
    else m !! rnd'.
Proof.
  unfold storeAnswer. destruct answer as [v|].
  - rewrite lookup_insert. by case_decide.
  - by case_decide.
Qed.

Lemma hasResults_storeAnswer (m : gmap string (list ResultEntry))
    (rnd : string) (answer : option (list ResultEntry)) :
  hasResults (storeAnswer m rnd answer) rnd
  = bool_decide (is_Some answer ∨ is_Some (m !! rnd)).
Proof.
  unfold hasResults. rewrite storeAnswer_lookup, decide_True by done.
  apply bool_decide_ext. destruct answer as [v|]; [naive_solver |].
  split; [by right | intros [[? [=]]|?]; done].
Qed.

(** What the loop has stored after the races [seen]: for each round it
    asked about, the provider's answers, with qualifying kept only where no
    result came. *)
Lemma load_loop_stores (api : Provider) (seen : list Race)
    (standings : list StandingEntry) (races : list Race) :
  let acc :=
    fold_left (loadRace api) seen
      {| ld_standings := standings; ld_races := races;
         ld_raceResults := ∅; ld_sprintResults := ∅;
         ld_qualifyingResults := ∅; ld_sprintQualifyingResults := ∅ |} in
  ld_standings acc = standings ∧ ld_races acc = races
  ∧ ∀ rnd,
      ld_raceResults acc !! rnd
      = (if decide (rnd ∈ scheduleRounds seen)
         then api_getRaceResults api rnd else None)
      ∧ ld_sprintResults acc !! rnd
        = (if decide (rnd ∈ sprintRounds seen)
           then api_getSprintResults api rnd else None)
      ∧ ld_qualifyingResults acc !! rnd
        = (if decide (rnd ∈ scheduleRounds seen)
           then match api_getRaceResults api rnd with
                | Some _ => None
                | None => api_getQualifyingResults api rnd
                end
           else None)
      ∧ ld_sprintQualifyingResults acc !! rnd
        = (if decide (rnd ∈ sprintRounds seen)
           then match api_getSprintResults api rnd with
                | Some _ => None
                | None => api_getSprintQualifyingResults api rnd
                end
           else None).
Proof.
  induction seen as [|r seen IH] using rev_ind.
  { simpl. split_and!; done. }
  cbv zeta in IH |- *. rewrite fold_left_app. simpl.
    set (acc := fold_left (loadRace api) seen _) in *.
    destruct IH as (Hst & Hra & IH).
    split_and!; [done | done |]. intros rnd.
    assert (∀ x, x ∈ scheduleRounds (seen ++ [r])
                 ↔ x ∈ scheduleRounds seen ∨ x = round r) as Hrounds.
    { intros x. unfold scheduleRounds.
      rewrite fmap_app, elem_of_app. simpl. by rewrite list_elem_of_singleton. }
    assert (∀ x, x ∈ sprintRounds (seen ++ [r])
                 ↔ x ∈ sprintRounds seen ∨ (x = round r ∧ hasSprint r = true))
      as Hsprints.
    { intros x. unfold sprintRounds. rewrite filter_app, fmap_app, elem_of_app.
      destruct (hasSprint r) eqn:Hs.
      - rewrite (filter_cons_True _ r) by done. simpl.
        rewrite list_elem_of_singleton. naive_solver.
      - rewrite (filter_cons_False _ r) by congruence. simpl.
        split; [intros [?|?%elem_of_nil]; [by left | done] |].
        intros [?|[_ ?]]; [by left | done]. }
    destruct (IH (round r)) as (Hrr0 & Hsr0 & Hq0 & Hsq0).
    destruct (IH rnd) as (Hrr & Hsr & Hq & Hsq).
    assert (hasResults
              (storeAnswer (ld_raceResults acc) (round r)
                 (api_getRaceResults api (round r))) (round r)
            = bool_decide (is_Some (api_getRaceResults api (round r)))) as Hhr.
    { rewrite hasResults_storeAnswer. apply bool_decide_ext.
      split; [intros [?|Hold]; [done |] | by left].
      rewrite Hrr0 in Hold. by case_decide. }
    assert (hasResults
              (storeAnswer (ld_sprintResults acc) (round r)
                 (api_getSprintResults api (round r))) (round r)
            = bool_decide (is_Some (api_getSprintResults api (round r))))
      as Hhs.
    { rewrite hasResults_storeAnswer. apply bool_decide_ext.
      split; [intros [?|Hold]; [done |] | by left].
      rewrite Hsr0 in Hold. by case_decide. }
    split_and!.
    - rewrite storeAnswer_lookup.
      destruct (decide (round r = rnd)) as [<-|Hne].
      + rewrite decide_True by (apply Hrounds; by right).
        destruct (api_getRaceResults api (round r)) eqn:E; [done |].
        rewrite Hrr0. repeat case_match; congruence.
      + rewrite Hrr. apply decide_ext. rewrite Hrounds. naive_solver.
    - destruct (hasSprint r) eqn:Hs.
      + rewrite storeAnswer_lookup.
        destruct (decide (round r = rnd)) as [<-|Hne].
        * rewrite decide_True by (apply Hsprints; by right).
          destruct (api_getSprintResults api (round r)) eqn:E; [done |].
          rewrite Hsr0. repeat case_match; congruence.
        * rewrite Hsr. apply decide_ext. rewrite Hsprints. naive_solver.
      + rewrite Hsr. apply decide_ext. rewrite Hsprints. naive_solver.
    - rewrite Hhr.
      destruct (api_getRaceResults api (round r)) as [res|] eqn:E.
      + rewrite bool_decide_eq_true_2 by done. simpl.
        destruct (decide (round r = rnd)) as [<-|Hne].
        * rewrite decide_True by (apply Hrounds; by right).
          rewrite ?E, Hq0, ?E. repeat case_match; congruence.
        * rewrite Hq. apply decide_ext. rewrite Hrounds. naive_solver.
      + rewrite bool_decide_eq_false_2 by (by intros [? ?]). simpl.
        rewrite storeAnswer_lookup.
        destruct (decide (round r = rnd)) as [<-|Hne].
        * rewrite decide_True by (apply Hrounds; by right). rewrite ?E.
          destruct (api_getQualifyingResults api (round r)) eqn:Eq; [done |].
          rewrite Hq0, ?E, ?Eq. repeat case_match; congruence.
        * rewrite Hq. apply decide_ext. rewrite Hrounds. naive_solver.
    - destruct (hasSprint r) eqn:Hs; simpl.
      + rewrite Hhs.
        destruct (api_getSprintResults api (round r)) as [res|] eqn:E.
        * rewrite bool_decide_eq_true_2 by done. simpl.
          destruct (decide (round r = rnd)) as [<-|Hne].
          -- rewrite decide_True by (apply Hsprints; by right).
             rewrite ?E, Hsq0, ?E. repeat case_match; congruence.
          -- rewrite Hsq. apply decide_ext. rewrite Hsprints. naive_solver.
        * rewrite bool_decide_eq_false_2 by (by intros [? ?]). simpl.
          rewrite storeAnswer_lookup.
          destruct (decide (round r = rnd)) as [<-|Hne].
          -- rewrite decide_True by (apply Hsprints; by right). rewrite ?E.
             destruct (api_getSprintQualifyingResults api (round r)) eqn:Eq;
               [done |].
             rewrite Hsq0, ?E, ?Eq. repeat case_match; congruence.
          -- rewrite Hsq. apply decide_ext. rewrite Hsprints. naive_solver.
      + rewrite Hsq. apply decide_ext. rewrite Hsprints. naive_solver.
Qed.

(** X22. What a load delivers: for every race of the schedule the result
    set the provider answered (or none); results only for rounds of the
    schedule, sprint results and sprint qualifying only for sprint weekends;
    and qualifying only for rounds that came back without a result, so a
    round never has both its result and its qualifying order loaded. *)
Theorem loadAllData_consistent (api : Provider) (data : LoadedData) :
  loadAllData api = Some data →
  (∀ r, r ∈ ld_races data →
        ld_raceResults data !! round r = api_getRaceResults api (round r))
  ∧ (∀ rnd, is_Some (ld_raceResults data !! rnd) →
            rnd ∈ scheduleRounds (ld_races data))
  ∧ (∀ rnd, is_Some (ld_sprintResults data !! rnd)
            ∨ is_Some (ld_sprintQualifyingResults data !! rnd) →
            rnd ∈ sprintRounds (ld_races data))
  ∧ (∀ rnd, is_Some (ld_qualifyingResults data !! rnd) →
            rnd ∈ scheduleRounds (ld_races data)
            ∧ ld_raceResults data !! rnd = None)
  ∧ (∀ rnd, is_Some (ld_sprintQualifyingResults data !! rnd) →
            ld_sprintResults data !! rnd = None).
Proof.
  unfold loadAllData. intros Hload.
  destruct (api_getDriverStandings api) as [standings|]; [| done].
  destruct (api_getRaces api) as [races|]; [| done].
  simpl in Hload. injection Hload as <-.
  pose proof (load_loop_stores api races standings races) as Hloop.
  cbv zeta in Hloop. destruct Hloop as (_ & -> & Hloop).
  split_and!.
  - intros r Hr. destruct (Hloop (round r)) as (-> & _).
    rewrite decide_True; [done |].
    unfold scheduleRounds. apply list_elem_of_fmap. by exists r.
  - intros rnd. destruct (Hloop rnd) as (-> & _).
    destruct (decide _); [done | by intros [? ?]].
  - intros rnd. destruct (Hloop rnd) as (_ & -> & _ & ->).
    destruct (decide _); [done |]. by intros [[? ?]|[? ?]].
  - intros rnd. destruct (Hloop rnd) as (-> & _ & -> & _).
    destruct (decide _); [| by intros [? ?]].
    destruct (api_getRaceResults api rnd); [by intros [? ?] | done].
  - intros rnd. destruct (Hloop rnd) as (_ & -> & _ & ->).
    destruct (decide _); [| by intros [? ?]].
    destruct (api_getSprintResults api rnd); [by intros [? ?] | done].
Qed.

Lemma loadAllData_consistent_witness :
  ∃ data, loadAllData midSeason = Some data
    ∧ ld_raceResults data = {["1" := [mkResult "max_verstappen" "1" 1 25]]}
    ∧ dom (ld_qualifyingResults data) = {["2"]}
    ∧ dom (ld_sprintQualifyingResults data) = {["2"]}
    ∧ (∀ rnd, is_Some (ld_qualifyingResults data !! rnd) →
              rnd ∈ scheduleRounds (ld_races data)
              ∧ ld_raceResults data !! rnd = None).
Proof.
  eexists. split; [reflexivity |].
  split_and!; [by vm_compute | by vm_compute | by vm_compute |].
  apply (loadAllData_consistent midSeason). reflexivity.
Defined.

(** X23. A refresh never touches what the user entered: the prediction
    manager and the renderer (the collapsed columns) are the same after
    [loadData], a stored prediction resolves to the same position after it,
    a refresh that fails changes nothing at all, and one that succeeds
    installs exactly the loaded schedule, results and qualifying, with the
    standings' drivers in the standings' order. *)
Theorem refresh_keeps_user_state (this : F1StandingsApp) (api : Provider) :
  predictionManager (loadData this api) = predictionManager this
  ∧ tableRenderer (loadData this api) = tableRenderer this
  ∧ (loadAllData api = None → loadData this api = this)
  ∧ (∀ data, loadAllData api = Some data →
       racesData (loadData this api) = ld_races data
       ∧ raceResults (loadData this api) = ld_raceResults data
       ∧ sprintResults (loadData this api) = ld_sprintResults data
       ∧ qualifyingResults (loadData this api) = ld_qualifyingResults data
       ∧ sprintQualifyingResults (loadData this api)
         = ld_sprintQualifyingResults data
       ∧ d_driverId <$> driversData (loadData this api)
         = st_driverId <$> ld_standings data)
  ∧ ∀ d rnd isSprint v,
      storedEntry (predictionManager this) isSprint rnd d = Some v →
      predictedPositionOf (loadData this api) d rnd isSprint
      = entryPosition v.
Proof.
  unfold loadData. destruct (loadAllData api) as [data|].
  - split_and!; try done.
    + intros ? [= <-]. split_and!; try done. simpl.
      rewrite <- list_fmap_compose. done.
    + intros d rnd isSprint v Hv. unfold predictedPositionOf.
      by apply getPredictedPosition_entry.
  - split_and!; try done.
    intros d rnd isSprint v Hv. unfold predictedPositionOf.
    by apply getPredictedPosition_entry.
Qed.

(** ** Totals and collapsed columns *)

(** A collapsed id that is no column of the schedule changes no total. *)
Lemma total_unaffected_by_other_key (driverId : string) (races : list Race)
    (rr sr : gmap string (list ResultEntry)) (up sp : gmap string obj)
    (collapsed : gset string) (predicted : string → string → bool → jsnum)
    (key : string) :
  (∀ r, r ∈ races → key ≠ raceKey (round r) ∧ key ≠ sprintKey (round r)) →
  calculateTotalPoints driverId races rr sr up sp ({[key]} ∪ collapsed) predicted
  = calculateTotalPoints driverId races rr sr up sp collapsed predicted.
Proof.
  induction races as [|r races IH]; intros Hother; [done |].
  rewrite !total_cons, !addRacePoints_columns, IH.
  - destruct (Hother r) as [Hr Hs]; [left |].
    rewrite (bool_decide_ext (raceKey (round r) ∈ {[key]} ∪ collapsed)
               (raceKey (round r) ∈ collapsed)) by set_solver.
    by rewrite (bool_decide_ext (sprintKey (round r) ∈ {[key]} ∪ collapsed)
                  (sprintKey (round r) ∈ collapsed)) by set_solver.
  - intros r' Hr'. apply Hother. by right.
Qed.

(** X24. Collapsing one visible column takes exactly that column's points
    off a driver's total: the stored points of his result there or, without
    a result, the points of his predicted position. This holds for a race
    column and for a sprint column, in a schedule that lists each round
    once. *)
Theorem collapsing_a_column_removes_its_points (driverId : string)
    (races : list Race) (r : Race)
    (rr sr : gmap string (list ResultEntry)) (up sp : gmap string obj)
    (collapsed : gset string) (predicted : string → string → bool → jsnum) :
  NoDup (scheduleRounds races) →
  r ∈ races →
  (raceKey (round r) ∉ collapsed →
   calculateTotalPoints driverId races rr sr up sp
     ({[raceKey (round r)]} ∪ collapsed) predicted
   = calculateTotalPoints driverId races rr sr up sp collapsed predicted
     - raceColumnPoints driverId rr predicted (round r))
  ∧ (hasSprint r = true → sprintKey (round r) ∉ collapsed →
     calculateTotalPoints driverId races rr sr up sp
       ({[sprintKey (round r)]} ∪ collapsed) predicted
     = calculateTotalPoints driverId races rr sr up sp collapsed predicted
       - sprintColumnPoints driverId sr predicted (round r)).
Proof.
  unfold scheduleRounds.
  induction races as [|r0 races IH]; intros Hnd Hr;
    [by apply elem_of_nil in Hr |].
  rewrite fmap_cons in Hnd. apply NoDup_cons in Hnd as [Hfresh Hnd].
  apply elem_of_cons in Hr as [->|Hr].
  - assert (∀ r', r' ∈ races → round r' ≠ round r0) as Hrest.
    { intros r' Hr' Heq. apply Hfresh. rewrite <- Heq.
      apply list_elem_of_fmap. by exists r'. }
    split.
    + intros Hvis. rewrite !total_cons, !addRacePoints_columns.
      rewrite total_unaffected_by_other_key.
      * rewrite (bool_decide_eq_true_2 (raceKey (round r0) ∈ _ ∪ _))
          by set_solver.
        rewrite (bool_decide_eq_false_2 (raceKey (round r0) ∈ collapsed))
          by done.
        rewrite (bool_decide_ext
                   (sprintKey (round r0) ∈ {[raceKey (round r0)]} ∪ collapsed)
                   (sprintKey (round r0) ∈ collapsed)).
        -- simpl. lia.
        -- pose proof (raceKey_not_sprintKey (round r0) (round r0)).
           set_solver.
      * intros r' Hr'. split.
        -- intros ?%raceKey_inj. by apply (Hrest r').
        -- apply raceKey_not_sprintKey.
    + intros Hs Hvis. rewrite !total_cons, !addRacePoints_columns.
      rewrite total_unaffected_by_other_key.
      * rewrite Hs.
        rewrite (bool_decide_eq_true_2 (sprintKey (round r0) ∈ _ ∪ _))
          by set_solver.
        rewrite (bool_decide_eq_false_2 (sprintKey (round r0) ∈ collapsed))
          by done.
        rewrite (bool_decide_ext
                   (raceKey (round r0) ∈ {[sprintKey (round r0)]} ∪ collapsed)
                   (raceKey (round r0) ∈ collapsed)).
        -- simpl. lia.
        -- pose proof (raceKey_not_sprintKey (round r0) (round r0)).
           set_solver.
      * intros r' Hr'. split.
        -- intros Heq. symmetry in Heq. by apply raceKey_not_sprintKey in Heq.
        -- intros ?%sprintKey_inj. by apply (Hrest r').
  - assert (round r ≠ round r0) as Hne.
    { intros Heq. apply Hfresh. rewrite <- Heq.
      apply list_elem_of_fmap. by exists r. }
    destruct (IH Hnd Hr) as [IHr IHs].
    split.
    + intros Hvis. rewrite !total_cons, !addRacePoints_columns, IHr by done.
      rewrite (bool_decide_ext
                 (raceKey (round r0) ∈ {[raceKey (round r)]} ∪ collapsed)
                 (raceKey (round r0) ∈ collapsed)).
      * rewrite (bool_decide_ext
                   (sprintKey (round r0) ∈ {[raceKey (round r)]} ∪ collapsed)
                   (sprintKey (round r0) ∈ collapsed)); [lia |].
        pose proof (raceKey_not_sprintKey (round r) (round r0)). set_solver.
      * pose proof (raceKey_inj (round r0) (round r)). set_solver.
    + intros Hs Hvis.
      rewrite !total_cons, !addRacePoints_columns, IHs by done.
      rewrite (bool_decide_ext
                 (raceKey (round r0) ∈ {[sprintKey (round r)]} ∪ collapsed)
                 (raceKey (round r0) ∈ collapsed)).
      * rewrite (bool_decide_ext
                   (sprintKey (round r0) ∈ {[sprintKey (round r)]} ∪ collapsed)
                   (sprintKey (round r0) ∈ collapsed)); [lia |].
        pose proof (sprintKey_inj (round r0) (round r)). set_solver.
      * pose proof (raceKey_not_sprintKey (round r0) (round r)). set_solver.
Qed.

Lemma collapsing_a_column_removes_its_points_witness :
  calculateTotalPoints "max_verstappen" [mkRace "5" None; mkRace "6" None]
    round5Results ∅ ∅ ∅ ({[raceKey "5"]} ∪ ∅) (λ _ _ _, Num 3)
  = calculateTotalPoints "max_verstappen" [mkRace "5" None; mkRace "6" None]
      round5Results ∅ ∅ ∅ ∅ (λ _ _ _, Num 3)
    - raceColumnPoints "max_verstappen" round5Results (λ _ _ _, Num 3) "5".
Proof.
  refine (proj1 (collapsing_a_column_removes_its_points "max_verstappen"
                   [mkRace "5" None; mkRace "6" None] (mkRace "5" None)
                   round5Results ∅ ∅ ∅ ∅ (λ _ _ _, Num 3) _ _) _).
  - unfold scheduleRounds. simpl. apply NoDup_cons.
    split; [| apply NoDup_singleton].
    by intros [=]%list_elem_of_singleton.
  - left.
  - apply not_elem_of_empty.
Defined.

(** ** Reachable prediction stores *)

Lemma writePrediction_store_ok (isSprint : bool) (this : F1StandingsApp)
    (A rnd : string) (position : jsval) :
  store_ok (userPredictions (predictionManager this)) →
  store_ok (sprintPredictions (predictionManager this)) →
  let after := writePrediction isSprint this A rnd position in
  store_ok (userPredictions (predictionManager after))
  ∧ store_ok (sprintPredictions (predictionManager after)).
Proof.
  intros Hu Hs after.
  pose proof (writePrediction_effect isSprint this A rnd position) as Heff.
  cbv zeta in Heff. fold after in Heff. destruct Heff as (Hmap & Hother & _).
  destruct isSprint; unfold predictionMap, negb in Hmap, Hother;
    rewrite Hmap, Hother; split; try done; by apply store_ok_write.
Qed.

Lemma applyWrites_store_ok (this : F1StandingsApp) (ws : list PredictionWrite) :
  store_ok (userPredictions (predictionManager this)) →
  store_ok (sprintPredictions (predictionManager this)) →
  store_ok (userPredictions (predictionManager (applyWrites this ws)))
  ∧ store_ok (sprintPredictions (predictionManager (applyWrites this ws))).
Proof.
  unfold applyWrites. revert this.
  induction ws as [|w ws IH]; intros this Hu Hs; [done |].
  simpl. apply IH; by apply writePrediction_store_ok.
Qed.

(** X25. Whatever the user does with the dropdowns after a reset (any
    number of race and sprint writes, of any values, for any drivers and
    rounds), every prediction object stays well-formed and one-to-one: no
    two drivers end up on the same concrete position of a round. *)
Theorem reachable_stores_one_to_one (this : F1StandingsApp)
    (ws : list PredictionWrite) :
  let after := applyWrites (resetPredictions this) ws in
  store_ok (userPredictions (predictionManager after))
  ∧ store_ok (sprintPredictions (predictionManager after)).
Proof.
  apply applyWrites_store_ok; intros rnd o Hl; simpl in Hl;
    by rewrite lookup_empty in Hl.
Qed.

(** ** Bulk toggles pressed repeatedly *)

(** X26. From its second press on the future toggle alternates between
    two states: three presses leave the collapsed set one press leaves. *)
Theorem future_toggle_alternates (this : TableRenderer)
    (races : list Race) (rr sr : gmap string (list ResultEntry)) :
  collapsedColumns (toggleAllFutureThrice this races rr sr)
  = collapsedColumns (TR.toggleAllFuture this races rr sr).1.
Proof.
  unfold toggleAllFutureThrice, toggleAllFutureTwice.
  set (first := (TR.toggleAllFuture this races rr sr).1).
  pose proof (toggleAllFutureTwice_eq first races rr sr) as Htwice.
  cbv zeta in Htwice. unfold toggleAllFutureTwice in Htwice.
  change (TR.toggleAllFuture
            (TR.toggleAllFuture (TR.toggleAllFuture this races rr sr).1
               races rr sr).1 races rr sr)
    with (TR.toggleAllFuture
            (TR.toggleAllFuture first races rr sr).1 races rr sr).
  rewrite Htwice. clear Htwice.
  unfold first. rewrite toggleAllFuture_eq. cbn zeta. simpl.
  set (C := collapsedColumns this). set (F := futureColumns races rr sr).
  destruct (TR.anyFutureVisible C rr races) eqn:Hvis.
  - apply anyFutureVisible_iff in Hvis as (r & Hr & Hres & Hout).
    pose proof (future_race_key_touched r races rr sr Hr Hres) as HrF.
    fold F in HrF.
    assert (TR.anyFutureVisible (C ∪ F) rr races = false) as ->.
    { apply not_true_is_false.
      intros (r' & Hr' & Hres' & Hout')%anyFutureVisible_iff.
      apply Hout', elem_of_union. right. by apply future_race_key_touched. }
    assert (TR.anyFutureVisible ((C ∪ F) ∖ F) rr races = true) as ->.
    { apply anyFutureVisible_iff. exists r. split_and!; [done | done |].
      set_solver. }
    set_solver.
  - destruct (TR.anyFutureVisible (C ∖ F) rr races) eqn:Hvis1; [set_solver |].
    assert (C ∖ F ∖ F = C ∖ F) as -> by set_solver.
    rewrite Hvis1. set_solver.
Qed.

(** ** Looking up a driver's result *)

(** X27. The result lookup answers [null] in exactly two situations, which
    it does not tell apart: the round has no result set at all, or it has
    one and the driver is not in it. The sprint lookup is the same function
    on the sprint results. *)
Theorem no_result_means_unresolved_or_absent (driverId rnd : string)
    (results : gmap string (list ResultEntry)) :
  (getDriverRaceResult driverId rnd results = None
   ↔ results !! rnd = None
     ∨ ∃ entries, results !! rnd = Some entries
                  ∧ ∀ e, e ∈ entries → res_driverId e ≠ driverId)
  ∧ getDriverSprintResult driverId rnd results
    = getDriverRaceResult driverId rnd results.
Proof.
  split; [| done]. unfold getDriverRaceResult.
  destruct (results !! rnd) as [entries|]; [| by split; [left |]].
  destruct (List.find _ entries) as [e|] eqn:Hfind.
  - split; [done |]. intros [[=]|(entries' & [= <-] & Habsent)].
    apply find_some in Hfind as [Hin Hid].
    apply bool_decide_eq_true in Hid.
    exfalso. apply (Habsent e); [by apply list_elem_of_In | done].
  - split; [intros _ | done]. right. exists entries. split; [done |].
    intros e Hin Hid. apply list_elem_of_In in Hin.
    pose proof (find_none _ _ Hfind e Hin) as Hno. simpl in Hno.
    by apply bool_decide_eq_false in Hno.
Qed.
